(** * The Paracletic chaos generator ([chaos.py]): model and properties

    A shallow embedding of [chaos.py]:
    - Python [bytes] are lists of [Byte.byte];
    - Python [int] is [Z]; [int.to_bytes(16, "big", signed=False)] is
      fallible (OverflowError outside [0, 2^128));
    - numpy float64 values are Rocq's primitive binary64 floats, so that the
      sign of zero, infinities and NaN are the ones of IEEE-754;
    - [hashlib.sha256] and [hashlib.sha512] are the FIPS 180-4 functions,
      implemented here on [Z] words so that digests can be evaluated;
    - [np.tanh] is the only operation left abstract (it is computed by the
      platform's mathematical library and is not correctly rounded): the
      generator is defined in a section over it;
    - the instance of [ParacleticChaosRNG] is a record passed explicitly,
      an exception is a constructor of the result type.

    [generate_nist_streams.py] and [generate_big_crush.py] are embedded as
    far as the bytes and text they write; progress messages and clocks are
    left out.  Module [Chaos] follows [chaos.py], modules [NistStreams] and
    [BigCrush] the two writers, module [Spec] the words of the
    specification. *)

From Stdlib.Strings Require Import Byte Ascii String.
From Stdlib Require Import ZArith List Lia Bool.
From Stdlib Require Import Floats Uint63.
Import ListNotations.
Local Open Scope Z_scope.

(** ** Byte strings *)

Definition bytes := list byte.

Definition byte_val (b : byte) : Z := Z.of_N (Byte.to_N b).

Definition byte_of (z : Z) : byte :=
  match Byte.of_N (Z.to_N (z mod 256)) with
  | Some b => b
  | None => x00
  end.

(** [z.to_bytes(n, "big")] for a [z] already known to fit. *)
Fixpoint be_bytes (n : nat) (z : Z) : bytes :=
  match n with
  | O => []
  | S k => byte_of (z / 256 ^ Z.of_nat k) :: be_bytes k z
  end.

(** [int.from_bytes(b, "big")]. *)
Definition int_from_bytes (b : bytes) : Z :=
  fold_left (fun acc x => acc * 256 + byte_val x) b 0.

(** A bytes literal [b"..."]. *)
Definition bytes_lit (s : string) : bytes := list_byte_of_string s.

(** Python slices [b[i:j]] with [0 <= i <= j] and [b[:n]]. *)
Definition slice {A} (l : list A) (i j : nat) : list A :=
  firstn (j - i) (skipn i l).

Definition len {A} (l : list A) : Z := Z.of_nat (length l).

(** ** SHA-2 (FIPS 180-4), the functions behind [hashlib.sha256] and
    [hashlib.sha512] *)

Module SHA2.

Record params := {
  wbits : Z;                      (* word size in bits: 32 or 64 *)
  wbytes : nat;                   (* word size in bytes *)
  K : list Z;                     (* round constants, one per round *)
  IV : list Z;                    (* initial hash value, 8 words *)
  bsig0 : Z * Z * Z;              (* rotations of the big sigma 0 *)
  bsig1 : Z * Z * Z;
  ssig0 : Z * Z * Z;              (* two rotations and a shift *)
  ssig1 : Z * Z * Z
}.

Section Generic.
Variable p : params.

Definition M : Z := 2 ^ wbits p.
Definition wrap (x : Z) : Z := x mod M.
Definition rotr (n x : Z) : Z :=
  wrap (Z.lor (Z.shiftr x n) (Z.shiftl x (wbits p - n))).
Definition shr (n x : Z) : Z := Z.shiftr x n.
Definition lnot (x : Z) : Z := M - 1 - x.

Definition Ch (x y z : Z) : Z := Z.lxor (Z.land x y) (Z.land (lnot x) z).
Definition Maj (x y z : Z) : Z :=
  Z.lxor (Z.lxor (Z.land x y) (Z.land x z)) (Z.land y z).
Definition rot3 (c : Z * Z * Z) (x : Z) : Z :=
  let '(a, b, d) := c in Z.lxor (Z.lxor (rotr a x) (rotr b x)) (rotr d x).
Definition rot2shr (c : Z * Z * Z) (x : Z) : Z :=
  let '(a, b, d) := c in Z.lxor (Z.lxor (rotr a x) (rotr b x)) (shr d x).

(** Padding: the bit 1, zeros, and the bit length on two words. *)
Definition block_bytes : nat := (16 * wbytes p)%nat.
Definition pad (m : bytes) : bytes :=
  let l := length m in
  let lenfield := (2 * wbytes p)%nat in
  let used := ((l + 1 + lenfield) mod block_bytes)%nat in
  let zeros := ((block_bytes - used) mod block_bytes)%nat in
  m ++ [x80] ++ repeat x00 zeros ++ be_bytes lenfield (8 * Z.of_nat l).

Fixpoint words (fuel : nat) (b : bytes) : list Z :=
  match fuel with
  | O => []
  | S f =>
      match b with
      | [] => []
      | _ => int_from_bytes (firstn (wbytes p) b) :: words f (skipn (wbytes p) b)
      end
  end.

(** Message schedule: [win] holds the last 16 words, most recent first. *)
Fixpoint expand (n : nat) (win : list Z) : list Z :=
  match n with
  | O => []
  | S k =>
      let w := wrap (rot2shr (ssig1 p) (nth 1 win 0) + nth 6 win 0
                     + rot2shr (ssig0 p) (nth 14 win 0) + nth 15 win 0) in
      w :: expand k (w :: firstn 15 win)
  end.

Definition schedule (blk : list Z) : list Z :=
  blk ++ expand (length (K p) - 16) (rev blk).

Definition hstate : Type := Z * Z * Z * Z * Z * Z * Z * Z.

Definition round (s : hstate) (kw : Z * Z) : hstate :=
  let '(a, b, c, d, e, f, g, h) := s in
  let t1 := wrap (h + rot3 (bsig1 p) e + Ch e f g + fst kw + snd kw) in
  let t2 := wrap (rot3 (bsig0 p) a + Maj a b c) in
  (wrap (t1 + t2), a, b, c, wrap (d + t1), e, f, g).

Definition compress (s : hstate) (blk : list Z) : hstate :=
  let '(a, b, c, d, e, f, g, h) :=
    fold_left round (combine (K p) (schedule blk)) s in
  let '(a0, b0, c0, d0, e0, f0, g0, h0) := s in
  (wrap (a0 + a), wrap (b0 + b), wrap (c0 + c), wrap (d0 + d),
   wrap (e0 + e), wrap (f0 + f), wrap (g0 + g), wrap (h0 + h)).

Fixpoint blocks (fuel : nat) (ws : list Z) (s : hstate) : hstate :=
  match fuel with
  | O => s
  | S f =>
      match ws with
      | [] => s
      | _ => blocks f (skipn 16 ws) (compress s (firstn 16 ws))
      end
  end.

Definition init : hstate :=
  let iv := IV p in
  (nth 0 iv 0, nth 1 iv 0, nth 2 iv 0, nth 3 iv 0,
   nth 4 iv 0, nth 5 iv 0, nth 6 iv 0, nth 7 iv 0).

Definition output (s : hstate) : bytes :=
  let '(a, b, c, d, e, f, g, h) := s in
  flat_map (be_bytes (wbytes p)) [a; b; c; d; e; f; g; h].

Definition digest (m : bytes) : bytes :=
  let pm := pad m in
  let ws := words (length pm) pm in
  output (blocks (length ws) ws init).
End Generic.

(** The round constants are the first bits of the fractional parts of the
    cube roots of the first primes, the initial values those of the square
    roots of the first eight: 64 bits of them for SHA-512, and the leading
    32 bits of the same numbers, for the first 64 primes, for SHA-256. *)
Definition K512 : list Z := [
    0x428a2f98d728ae22; 0x7137449123ef65cd;
    0xb5c0fbcfec4d3b2f; 0xe9b5dba58189dbbc;
    0x3956c25bf348b538; 0x59f111f1b605d019;
    0x923f82a4af194f9b; 0xab1c5ed5da6d8118;
    0xd807aa98a3030242; 0x12835b0145706fbe;
    0x243185be4ee4b28c; 0x550c7dc3d5ffb4e2;
    0x72be5d74f27b896f; 0x80deb1fe3b1696b1;
    0x9bdc06a725c71235; 0xc19bf174cf692694;
    0xe49b69c19ef14ad2; 0xefbe4786384f25e3;
    0x0fc19dc68b8cd5b5; 0x240ca1cc77ac9c65;
    0x2de92c6f592b0275; 0x4a7484aa6ea6e483;
    0x5cb0a9dcbd41fbd4; 0x76f988da831153b5;
    0x983e5152ee66dfab; 0xa831c66d2db43210;
    0xb00327c898fb213f; 0xbf597fc7beef0ee4;
    0xc6e00bf33da88fc2; 0xd5a79147930aa725;
    0x06ca6351e003826f; 0x142929670a0e6e70;
    0x27b70a8546d22ffc; 0x2e1b21385c26c926;
    0x4d2c6dfc5ac42aed; 0x53380d139d95b3df;
    0x650a73548baf63de; 0x766a0abb3c77b2a8;
    0x81c2c92e47edaee6; 0x92722c851482353b;
    0xa2bfe8a14cf10364; 0xa81a664bbc423001;
    0xc24b8b70d0f89791; 0xc76c51a30654be30;
    0xd192e819d6ef5218; 0xd69906245565a910;
    0xf40e35855771202a; 0x106aa07032bbd1b8;
    0x19a4c116b8d2d0c8; 0x1e376c085141ab53;
    0x2748774cdf8eeb99; 0x34b0bcb5e19b48a8;
    0x391c0cb3c5c95a63; 0x4ed8aa4ae3418acb;
    0x5b9cca4f7763e373; 0x682e6ff3d6b2b8a3;
    0x748f82ee5defb2fc; 0x78a5636f43172f60;
    0x84c87814a1f0ab72; 0x8cc702081a6439ec;
    0x90befffa23631e28; 0xa4506cebde82bde9;
    0xbef9a3f7b2c67915; 0xc67178f2e372532b;
    0xca273eceea26619c; 0xd186b8c721c0c207;
    0xeada7dd6cde0eb1e; 0xf57d4f7fee6ed178;
    0x06f067aa72176fba; 0x0a637dc5a2c898a6;
    0x113f9804bef90dae; 0x1b710b35131c471b;
    0x28db77f523047d84; 0x32caab7b40c72493;
    0x3c9ebe0a15c9bebc; 0x431d67c49c100d4c;
    0x4cc5d4becb3e42b6; 0x597f299cfc657e2a;
    0x5fcb6fab3ad6faec; 0x6c44198c4a475817 ].

Definition IV512 : list Z := [
    0x6a09e667f3bcc908; 0xbb67ae8584caa73b;
    0x3c6ef372fe94f82b; 0xa54ff53a5f1d36f1;
    0x510e527fade682d1; 0x9b05688c2b3e6c1f;
    0x1f83d9abfb41bd6b; 0x5be0cd19137e2179 ].

Definition high_half (w : Z) : Z := Z.shiftr w 32.

Definition p512 : params := {|
  wbits := 64; wbytes := 8;
  K := K512;
  IV := IV512;
  bsig0 := (28, 34, 39); bsig1 := (14, 18, 41);
  ssig0 := (1, 8, 7); ssig1 := (19, 61, 6)
|}.

Definition p256 : params := {|
  wbits := 32; wbytes := 4;
  K := map high_half (firstn 64 K512);
  IV := map high_half IV512;
  bsig0 := (2, 13, 22); bsig1 := (6, 11, 25);
  ssig0 := (7, 18, 3); ssig1 := (17, 19, 10)
|}.

End SHA2.

(** [hashlib.sha256(m).digest()] and [hashlib.sha512(m).digest()]. *)
Definition sha256 (m : bytes) : bytes := SHA2.digest SHA2.p256 m.
Definition sha512 (m : bytes) : bytes := SHA2.digest SHA2.p512 m.

(** ** Outcomes of a call: a value, a Python exception, or (for the model
    of a [while] loop only) the exhaustion of the fuel given to it *)

Inductive exn : Set := OverflowError | KeyError | ValueError.

Inductive outcome (A : Type) : Type :=
| Ok (a : A)
| Raise (e : exn)
| OutOfFuel.
Arguments Ok {A} a.
Arguments Raise {A} e.
Arguments OutOfFuel {A}.

Definition bind {A B} (c : outcome A) (k : A -> outcome B) : outcome B :=
  match c with
  | Ok a => k a
  | Raise e => Raise e
  | OutOfFuel => OutOfFuel
  end.

Notation "x <- c ;; k" := (bind c (fun x => k))
  (at level 61, c at next level, right associativity).
Notation "' p <- c ;; k" := (bind c (fun p => k))
  (at level 61, p pattern, c at next level, right associativity).

(** [z.to_bytes(n, "big", signed=False)]: OverflowError when [z] is negative
    or does not fit in [n] bytes. *)
Definition to_bytes (n : nat) (z : Z) : outcome bytes :=
  if (0 <=? z) && (z <? 256 ^ Z.of_nat n) then Ok (be_bytes n z)
  else Raise OverflowError.

(** [out[:n]] on a byte string, for any integer [n]. *)
Definition upto (out : bytes) (n : Z) : bytes :=
  if 0 <=? n then firstn (Z.to_nat n) out
  else firstn (length out - Z.to_nat (- n)) out.

(** ** float64 values and one-dimensional arrays *)

Definition vec := list float.

(** [float(k)] for a small non-negative integer and the true division
    [v / 2**32] of two integers below [2^53] (both conversions are exact, the
    quotient is correctly rounded). *)
Definition float_of_Z (z : Z) : float := PrimFloat.of_uint63 (Uint63.of_Z z).
Definition int_truediv (a b : Z) : float :=
  PrimFloat.div (float_of_Z a) (float_of_Z b).

(** [struct.pack("!d", v)]: the binary64 encoding, most significant byte
    first.  The model has one NaN, and [struct.pack] writes the sign and
    payload the NaN was produced with: the NaN of the model is encoded as
    [fff8000000000000], the one x86-64 arithmetic produces. *)
Definition double_bits (v : float) : Z :=
  let sign (s : bool) := if s then 2 ^ 63 else 0 in
  match Prim2SF v with
  | S754_zero s => sign s
  | S754_infinity s => sign s + 0x7ff * 2 ^ 52
  | S754_nan => 0xfff8 * 2 ^ 48
  | S754_finite s m e =>
      if Z.pos m <? 2 ^ 52 then sign s + Z.pos m
      else sign s + (e + 1075) * 2 ^ 52 + (Z.pos m - 2 ^ 52)
  end.

Definition pack_d (v : float) : bytes := be_bytes 8 (double_bits v).

(** Elementwise operation of two arrays with numpy's broadcasting rule for
    one dimension: equal lengths, or one operand of length 1; ValueError
    otherwise. *)
Fixpoint map2 {A B C} (f : A -> B -> C) (x : list A) (y : list B) : list C :=
  match x, y with
  | a :: x', b :: y' => f a b :: map2 f x' y'
  | _, _ => []
  end.

Definition broadcast (f : float -> float -> float) (x y : vec) : outcome vec :=
  match x, y with
  | [a], _ => Ok (map (f a) y)
  | _, [b] => Ok (map (fun a => f a b) x)
  | _, _ =>
      if Nat.eqb (length x) (length y) then Ok (map2 f x y)
      else Raise ValueError
  end.

Definition np_abs (x : vec) : vec := map PrimFloat.abs x.

(** [np.sum] of a contiguous float64 array: numpy adds, to the initial
    value [0.0] of the reduction, the pairwise sum of the elements: fewer
    than 8 elements are accumulated from left to right, starting from
    [-0.0]; up to 128 elements go through eight accumulators that are
    combined as a tree, the remaining elements being added one by one;
    longer arrays are split in two. *)
Definition sum_seq (acc : float) (l : vec) : float :=
  fold_left PrimFloat.add l acc.

Fixpoint acc8 (r : vec) (l : vec) (k : nat) : vec * vec :=
  match k with
  | O => (r, l)
  | S k' => acc8 (map2 PrimFloat.add r (firstn 8 l)) (skipn 8 l) k'
  end.

Definition sum_block (l : vec) : float :=
  let n := length l in
  let '(r, rest) := acc8 (firstn 8 l) (skipn 8 l) (n / 8 - 1) in
  let r i := nth i r 0%float in
  let res := (((r 0%nat + r 1%nat) + (r 2%nat + r 3%nat))
              + ((r 4%nat + r 5%nat) + (r 6%nat + r 7%nat)))%float in
  sum_seq res rest.

Fixpoint pairwise_sum (fuel : nat) (l : vec) : float :=
  let n := length l in
  if (n <? 8)%nat then sum_seq neg_zero l
  else if (n <=? 128)%nat then sum_block l
  else
    match fuel with
    | O => sum_seq neg_zero l
    | S f =>
        let n2 := (n / 2 - (n / 2) mod 8)%nat in
        (pairwise_sum f (firstn n2 l) + pairwise_sum f (skipn n2 l))%float
    end.

Definition np_sum (x : vec) : float :=
  (0 + pairwise_sum (length x) x)%float.

(** [np.mean]: the sum divided by the number of elements. *)
Definition np_mean (x : vec) : float :=
  (np_sum x / float_of_Z (len x))%float.

(** [np.full_like(x, c)]. *)
Definition full_like (x : vec) (c : float) : vec := repeat c (length x).

(** [np.roll(x, 1)] and [np.roll(x, -1)]. *)
Definition roll_right (x : vec) : vec :=
  match x with
  | [] => []
  | _ => last x 0%float :: removelast x
  end.

Definition roll_left (x : vec) : vec :=
  match x with
  | [] => []
  | a :: t => t ++ [a]
  end.

(** [np.clip(v, -1.0, 1.0)] on one element: the minimum with the upper bound
    of the maximum with the lower bound, NaN being propagated. *)
Definition clip1 (v : float) : float :=
  let t := if PrimFloat.is_nan v || PrimFloat.ltb (-1)%float v then v
           else (-1)%float in
  if PrimFloat.is_nan t || PrimFloat.ltb t 1%float then t else 1%float.

(** A Python [dict] with string keys, as the association list of its items. *)
Fixpoint dict_get {V} (d : list (string * V)) (k : string) : outcome V :=
  match d with
  | [] => Raise KeyError
  | (k', v) :: d' => if String.eqb k' k then Ok v else dict_get d' k
  end.

(** ** [chaos.py] *)

Module Chaos.

(** The literals [1e-12], [1e-3] and [1e-9], each the binary64 value nearest
    to the decimal one. *)
Definition EPS : float := 0x1.19799812dea11p-40%float.
Definition c1e_3 : float := 0x1.0624dd2f1a9fcp-10%float.
Definition c1e_9 : float := 0x1.12e0be826d695p-30%float.

Definition N_DIM : nat := 12.

(** *** The transforms that do not call [np.tanh] *)

Definition Null_point : float := 0%float.

Definition InverseZero_operator (p : float) : float :=
  if PrimFloat.eqb p 0%float then neg_zero else neg_zero.

Definition H_inverse_zero_null : float := 1%float.

Definition f_truth (x : vec) : vec := x.

Definition f_purity (x : vec) : vec :=
  let abs_x := np_abs x in
  let s := np_sum abs_x in
  if PrimFloat.ltb s EPS then full_like x Null_point
  else map (fun a => a / s)%float abs_x.

Definition f_law (x : vec) : vec := map clip1 x.

Definition f_love (x : vec) : vec :=
  let m := np_mean x in
  let result := map (fun a => (a + m) * 0.5)%float x in
  map (fun r => if PrimFloat.ltb (PrimFloat.abs r) EPS
                then InverseZero_operator 0%float else r) result.

Definition f_wisdom (x : vec) : vec :=
  let left := roll_right x in
  let right := roll_left x in
  map2 (fun a lr => (a + 0.5 * lr) * 0.5)%float x
       (map2 PrimFloat.add left right).

Definition f_glory (x : vec) : vec :=
  let v := map (fun a => if PrimFloat.leb 0%float a then (a * a)%float
                         else (- a * a)%float) x in
  let s := np_sum (np_abs v) in
  if PrimFloat.ltb s EPS then full_like x Null_point
  else map (fun a => a / s)%float v.

(** *** The generator

    [np.tanh] is computed by the mathematical library numpy was built with;
    its results are not fixed bit for bit by IEEE-754.  Everything that
    depends on it is defined over an arbitrary [np_tanh]. *)

(** The instance attributes of [ParacleticChaosRNG]. *)
Record rng : Type := mkRNG {
  key : bytes;
  state : vec;
  enabled : vec;
  counter : Z
}.

(** What [__init__] reads from the operating system when no seed is given:
    [os.urandom(32)], [secrets.token_bytes(32)], [time.time_ns()] and
    [os.getpid()]. *)
Record entropy : Type := mkEntropy {
  os_urandom : bytes;
  secrets_token : bytes;
  time_ns : Z;
  getpid : Z
}.

(** The loop shared by [__init__] and [_step]: one value per dimension from
    the 4-byte chunks of a digest.  [src] is a SHA-512 digest there, 64 bytes
    long, so that the modulus is never zero. *)
Definition chunk_at (src : bytes) (i : nat) : bytes :=
  let start := ((i * 4) mod length src)%nat in
  let chunk := slice src start (start + 4) in
  if (length chunk <? 4)%nat then firstn 4 (chunk ++ src) else chunk.

Definition unit_value (chunk : bytes) : float :=
  let v := int_from_bytes chunk in
  (int_truediv v (2 ^ 32) * 2 - 1)%float.

Definition hash_vals (src : bytes) : vec :=
  map (fun i => unit_value (chunk_at src i)) (seq 0 N_DIM).

Definition vector_to_bytes (st : vec) : bytes := flat_map pack_d st.

Definition seed_material (env : entropy) (seed_bytes : option bytes)
  : outcome bytes :=
  match seed_bytes with
  | None =>
      t <- to_bytes 8 (time_ns env) ;;
      p <- to_bytes 4 (getpid env) ;;
      Ok (os_urandom env ++ secrets_token env ++ t ++ p)
  | Some s =>
      if (length s <? 32)%nat then Ok (sha256 s) else Ok s
  end.

(** [ParacleticChaosRNG.__init__]. *)
Definition init (env : entropy) (seed_bytes : option bytes) : outcome rng :=
  material <- seed_material env seed_bytes ;;
  let key0 := sha256 (material ++ bytes_lit "|key") in
  let base_vec :=
    map (fun o => o / float_of_Z (Z.of_nat N_DIM))%float (repeat 1%float N_DIM) in
  let noise_src := sha512 (material ++ bytes_lit "|init") in
  let noise_vec := map (fun a => a * c1e_3)%float (hash_vals noise_src) in
  st <- broadcast PrimFloat.add base_vec noise_vec ;;
  let en := map (fun i => if existsb (Nat.eqb i) [0; 4; 7]%nat
                          then 1%float else 0%float) (seq 0 N_DIM) in
  Ok {| key := key0; state := st; enabled := en; counter := 0 |}.

(** The seed of [selftest]. *)
Definition selftest_seed : bytes :=
  sha256 (bytes_lit "paracletic_selftest_seed").

Section Generator.
Variable np_tanh : float -> float.

Definition f_life (x : vec) : vec :=
  let base := map np_tanh x in
  let zeta := H_inverse_zero_null in
  map (fun a => a * zeta)%float base.

Definition PRINCIPLES : list string :=
  ["Truth"; "Purity"; "Law"; "Love"; "Wisdom"; "Life"; "Glory"]%string.

Definition PRINCIPLE_MAP : list (string * (vec -> vec)) :=
  [("Truth", f_truth); ("Purity", f_purity); ("Law", f_law);
   ("Love", f_love); ("Wisdom", f_wisdom); ("Life", f_life);
   ("Glory", f_glory)]%string.

Definition apply_principle (name : string) (x : vec) : outcome vec :=
  f <- dict_get PRINCIPLE_MAP name ;; Ok (f x).

Fixpoint for_principles (names : list string) (x : vec) : outcome vec :=
  match names with
  | [] => Ok x
  | name :: rest => y <- apply_principle name x ;; for_principles rest y
  end.

Definition step_vector (x en : vec) : outcome vec :=
  x_masked <- broadcast PrimFloat.mul x en ;;
  for_principles PRINCIPLES x_masked.

(** [ParacleticChaosRNG._step]. *)
Definition _step (g : rng) : outcome rng :=
  st1 <- step_vector (state g) (enabled g) ;;
  ctr_bytes <- to_bytes 16 (counter g) ;;
  let mix := sha512 (key g ++ ctr_bytes) in
  let jitter := map (fun a => a * c1e_9)%float (hash_vals mix) in
  st2 <- broadcast PrimFloat.add st1 jitter ;;
  let norm := np_sum (np_abs st2) in
  let st3 := if PrimFloat.ltb EPS norm
             then map (fun a => a / norm)%float st2 else st2 in
  let state_bytes := vector_to_bytes st3 in
  let key' := sha256 (key g ++ state_bytes ++ ctr_bytes) in
  Ok {| key := key'; state := st3; enabled := enabled g;
        counter := counter g + 1 |}.

(** [for _ in range(k): self._step()]. *)
Fixpoint steps (k : nat) (g : rng) : outcome rng :=
  match k with
  | O => Ok g
  | S k' => g' <- _step g ;; steps k' g'
  end.

(** The [while] loop of [random_bytes], [fuel] bounding its iterations. *)
Fixpoint random_bytes_loop (fuel : nat) (n : Z) (out : bytes) (g : rng)
  : outcome (bytes * rng) :=
  if len out <? n then
    match fuel with
    | O => OutOfFuel
    | S f =>
        g5 <- steps 5 g ;;
        ctr_bytes <- to_bytes 16 (counter g5) ;;
        let block :=
          sha256 (vector_to_bytes (state g5) ++ key g5 ++ ctr_bytes) in
        random_bytes_loop f n (out ++ block)
          {| key := key g5; state := state g5; enabled := enabled g5;
             counter := counter g5 + 1 |}
    end
  else Ok (upto out n, g).

(** [ParacleticChaosRNG.random_bytes]: the result and the instance after
    the call.  Every iteration appends 32 bytes, so [n] iterations are
    more than the loop can make ([random_bytes_fuel] below). *)
Definition random_bytes (n : Z) (g : rng) : outcome (bytes * rng) :=
  random_bytes_loop (Z.to_nat n) n [] g.

(** [ParacleticChaosRNG(seed).random_bytes(n)] on an instance made for
    the call, as [selftest] does twice with one seed. *)
Definition seeded_output (env : entropy) (seed : bytes) (n : Z)
  : outcome bytes :=
  g <- init env (Some seed) ;;
  '(out, _) <- random_bytes n g ;;
  Ok out.

(** The first check of [selftest]: [false] where the code prints
    "determinism check failed" and returns [False]. *)
Definition selftest_determinism (env1 env2 : entropy) : outcome bool :=
  let seed := selftest_seed in
  a <- seeded_output env1 seed 64 ;;
  b <- seeded_output env2 seed 64 ;;
  Ok (if list_eq_dec byte_eq_dec a b then true else false).

End Generator.

End Chaos.

(** ** [generate_nist_streams.py] *)

Module NistStreams.

(** A Python [str], as the list of its characters. *)
Definition str := list ascii.

(** The inner loop of [bytes_to_bitstring] over [i in range(8)]: [inl] is
    the value returned from inside the loop, [inr] the variables [bits] and
    [needed] when the loop ends. *)
Fixpoint byte_bits (b : Z) (range : list Z) (bits : str) (needed : Z)
  : str + (str * Z) :=
  match range with
  | [] => inr (bits, needed)
  | i :: rest =>
      if needed =? 0 then inl bits
      else
        let bit := Z.land (Z.shiftr b (7 - i)) 1 in
        byte_bits b rest
                  (bits ++ [if bit =? 0 then "0"%char else "1"%char])
                  (needed - 1)
  end.

Fixpoint bitstring_loop (data : bytes) (bits : str) (needed : Z) : str :=
  match data with
  | [] => bits
  | b :: rest =>
      match byte_bits (byte_val b) [0; 1; 2; 3; 4; 5; 6; 7] bits needed with
      | inl r => r
      | inr (bits', needed') => bitstring_loop rest bits' needed'
      end
  end.

Definition bytes_to_bitstring (data : bytes) (n_bits : Z) : str :=
  bitstring_loop data [] n_bits.

Section Streams.
Variable np_tanh : float -> float.

(** The text written to one file by [main], with the default module and
    class: a new unseeded instance, [(bits + 7) // 8] bytes from it, and
    their bits.  [env] is what the construction of that instance reads from
    the operating system. *)
Definition stream_text (env : Chaos.entropy) (bits : Z) : outcome str :=
  rng <- Chaos.init env None ;;
  let n_bytes := (bits + 7) / 8 in
  '(raw, _) <- Chaos.random_bytes np_tanh n_bytes rng ;;
  Ok (bytes_to_bitstring raw bits).

End Streams.

End NistStreams.

(** ** [generate_big_crush.py] *)

Module BigCrush.

Definition chunk : Z := 1000000.

Section Writer.
Variable np_tanh : float -> float.

(** The [while] loop of [main]: [file] is what has been written so far.
    The messages printed and the clock are left out; an exception is
    raised again by the handler.  [fuel] bounds the iterations. *)
Fixpoint write_loop (fuel : nat) (total written : Z) (rng : Chaos.rng)
         (file : bytes) : outcome (bytes * Chaos.rng) :=
  if written <? total then
    match fuel with
    | O => OutOfFuel
    | S f =>
        let k := if chunk <=? total - written then chunk
                 else total - written in
        '(raw, rng') <- Chaos.random_bytes np_tanh (4 * k) rng ;;
        write_loop f total (written + k) rng' (file ++ raw)
    end
  else Ok (file, rng).

(** The content of the file [main] writes for [--words total], and the
    instance afterwards.  Every iteration writes at least one word, so
    [total] iterations are enough. *)
Definition write_words (env : Chaos.entropy) (total : Z)
  : outcome (bytes * Chaos.rng) :=
  rng <- Chaos.init env None ;;
  write_loop (Z.to_nat total) total 0 rng [].

End Writer.

End BigCrush.

(** ** The specification's view of the generator

    The definitions of this part follow the words of the specification
    (sections 4.2, 4.3 and 6); the theorems below compare them with the
    definitions above, which follow the code. *)

Module Spec.
Import Chaos.

Section Specification.
Variable np_tanh : float -> float.

(** "Seven named transforms, applied strictly in this order". *)
Definition pipeline (x : vec) : vec :=
  f_glory (f_life np_tanh (f_wisdom (f_love (f_law (f_purity (f_truth x)))))).

(** "split the hash digest into 4-byte chunks, interpret each chunk as an
    unsigned 32-bit big-endian integer, map to the range [-1, 1] via
    (v / 2^32) * 2 - 1". *)
Definition chunk_values (digest : bytes) : vec :=
  map (fun i =>
         let v := int_from_bytes (slice digest (4 * i) (4 * i + 4)) in
         (int_truediv v (2 ^ 32) * 2 - 1)%float)
      (seq 0 12).

(** "if it exceeds epsilon, divide every element by that norm (no-op
    otherwise)". *)
Definition l1_norm (v : vec) : float := np_sum (np_abs v).
Definition l1_normalize (v : vec) : vec :=
  if PrimFloat.ltb EPS (l1_norm v)
  then map (fun a => a / l1_norm v)%float v else v.

(** "consecutive 8-byte big-endian IEEE-754 double values". *)
Definition serialize (v : vec) : bytes :=
  flat_map (fun a => be_bytes 8 (double_bits a)) v.

(** Section 4.2, [advance()], steps 1 to 8. *)
Definition advance (g : rng) : outcome rng :=
  masked <- broadcast PrimFloat.mul (state g) (enabled g) ;;
  let transformed := pipeline masked in
  ctr16 <- to_bytes 16 (counter g) ;;
  let jitter :=
    map (fun a => a * c1e_9)%float (chunk_values (sha512 (key g ++ ctr16))) in
  st <- broadcast PrimFloat.add transformed jitter ;;
  let st' := l1_normalize st in
  Ok {| key := sha256 (key g ++ serialize st' ++ ctr16);
        state := st';
        enabled := enabled g;
        counter := counter g + 1 |}.

(** Section 4.3, the body of the loop of [fill(n)]: five steps, one
    digest of (state, key, counter), one more increment of the counter. *)
Definition emit_block (g : rng) : outcome (bytes * rng) :=
  g5 <- Chaos.steps np_tanh 5 g ;;
  ctr16 <- to_bytes 16 (counter g5) ;;
  Ok (sha256 (serialize (state g5) ++ key g5 ++ ctr16),
      {| key := key g5; state := state g5; enabled := enabled g5;
         counter := counter g5 + 1 |}).

Fixpoint emit_blocks (k : nat) (g : rng) : outcome (list bytes * rng) :=
  match k with
  | O => Ok ([], g)
  | S k' =>
      '(b, g1) <- emit_block g ;;
      '(bs, g2) <- emit_blocks k' g1 ;;
      Ok (b :: bs, g2)
  end.

(** The number of 32-byte blocks whose total length reaches [n]:
    [ceil(n / 32)], and 0 when [n <= 0]. *)
Definition blocks_needed (n : Z) : nat := Z.to_nat ((n + 31) / 32).

End Specification.

(** Seed material as section 6 words it for an explicit seed. *)
Definition explicit_seed_material (s : bytes) : bytes :=
  if (length s <? 32)%nat then sha256 s else s.

(** "a uniform base vector (each of the 12 dimensions set to 1/12) plus a
    small deterministic noise vector (scale 1e-3)" from the digest of the
    seed material followed by [tag]. *)
Definition initial_state (material tag : bytes) : vec :=
  map (fun u => 1 / 12 + u * c1e_3)%float
      (chunk_values (sha512 (material ++ tag))).

Definition initial_key (material tag : bytes) : bytes :=
  sha256 (material ++ tag).

(** "true only at indices {0, 4, 7}". *)
Definition enable_mask : vec :=
  [1; 0; 0; 0; 1; 0; 0; 1; 0; 0; 0; 0]%float.

End Spec.

Import Chaos Spec.

(** The three coordinates the mask keeps, and a well-formed instance: the
    shapes [__init__] gives to the arrays and a counter that has not been
    made negative. *)
Definition wf (g : rng) : Prop :=
  length (state g) = N_DIM /\ length (enabled g) = N_DIM /\ 0 <= counter g.

(** The binary expansion of a byte, most significant bit first, and the
    byte such an expansion stands for. *)
Definition msb_first (b : byte) : NistStreams.str :=
  map (fun k => if Z.testbit (byte_val b) k then "1"%char else "0"%char)
      [7; 6; 5; 4; 3; 2; 1; 0].

(** The character [bytes_to_bitstring] appends for bit [i] of [b]. *)
Definition bit_char (b i : Z) : ascii :=
  if Z.land (Z.shiftr b (7 - i)) 1 =? 0 then "0"%char else "1"%char.

Definition expansion (data : bytes) : NistStreams.str :=
  flat_map msb_first data.

Definition byte_of_bits (s : NistStreams.str) : byte :=
  byte_of (fold_left (fun a c => 2 * a + (if Ascii.eqb c "1" then 1 else 0))
                     s 0).

(** The vector [_step] normalizes: the transformed state plus the jitter
    (lines 112 to 123 of [chaos.py]). *)
Definition pre_normalization (np_tanh : float -> float) (g : rng)
  : outcome vec :=
  st1 <- step_vector np_tanh (state g) (enabled g) ;;
  ctr_bytes <- to_bytes 16 (counter g) ;;
  let mix := sha512 (key g ++ ctr_bytes) in
  let jitter := map (fun a => a * c1e_9)%float (hash_vals mix) in
  broadcast PrimFloat.add st1 jitter.

(** The instances a program can reach: constructed by [__init__], then
    changed by [_step] and by the increment of the counter that
    [random_bytes] makes after each block. *)
Inductive reachable (np_tanh : float -> float) : rng -> Prop :=
| reach_init (env : entropy) (seed : option bytes) (g : rng) :
    init env seed = Ok g -> reachable np_tanh g
| reach_step (g g' : rng) :
    reachable np_tanh g -> _step np_tanh g = Ok g' -> reachable np_tanh g'
| reach_block (g : rng) :
    reachable np_tanh g ->
    reachable np_tanh {| key := key g; state := state g;
                         enabled := enabled g; counter := counter g + 1 |}.

(** The invariant as the specification states it: after a step the L1
    norm of the state is 1, or the norm before normalization was at or
    below the threshold and the division was skipped. *)
Definition unit_norm_or_skipped (np_tanh : float -> float) : Prop :=
  forall g g' : rng,
    reachable np_tanh g -> _step np_tanh g = Ok g' ->
    l1_norm (state g') = 1%float \/
    (exists v, pre_normalization np_tanh g = Ok v /\
               PrimFloat.leb (l1_norm v) EPS = true /\ state g' = v).

(** A call that returns or raises: the model of its loops had fuel enough. *)
Definition terminates {A} (c : outcome A) : Prop := c <> OutOfFuel.

(** The signed squares of [f_glory]. *)
Definition signed_squares (x : vec) : vec :=
  map (fun a => if PrimFloat.leb 0%float a then (a * a)%float
                else (- a * a)%float) x.

(** ** Values for running the model

    Two environments, and a rational function standing for [np.tanh] where
    an example has to be evaluated. *)
Definition entropy0 : entropy :=
  {| os_urandom := repeat x00 32; secrets_token := repeat x01 32;
     time_ns := 1700000000000000000; getpid := 4242 |}.

Definition entropy1 : entropy :=
  {| os_urandom := repeat xff 32; secrets_token := repeat x7f 32;
     time_ns := 1700000000123456789; getpid := 17 |}.

Definition tanh_rational (x : float) : float :=
  (x * (27 + x * x) / (27 + 9 * (x * x)))%float.

(** The values [np.tanh] returns (numpy on x86-64) at the seven arguments
    it is applied to in the first step from the seed of [selftest]; with
    them the first step gives the key of the real run, which starts with
    the bytes bd 6e 45 49.  Elsewhere the function is the stand-in. *)
Definition tanh_observed (x : float) : float :=
  let table :=
    [(0x1.5555555555555p-5, 0x1.5522ccef24b01p-5);
     (0x1.53dd58778988bp-4, 0x1.531638dd7949cp-4);
     (0x1.559a21e2eeaadp-4, 0x1.54cff1f2fe9f4p-4);
     (0x1.568885a587cc6p-4, 0x1.55bcae0d06921p-4);
     (0x1.fd1006446866cp-4, 0x1.fa7528fa0e272p-4);
     (0x1.0044cc8d99558p-3, 0x1.fde10a90f7894p-4);
     (0x1.0133305032771p-3, 0x1.ffb667ed62e96p-4)]%float in
  match find (fun p => PrimFloat.eqb (fst p) x) table with
  | Some p => snd p
  | None => tanh_rational x
  end.

(** The instance [ParacleticChaosRNG(seed)] of [selftest]. *)
Definition fresh_selftest : rng :=
  match init entropy0 (Some selftest_seed) with
  | Ok g => g
  | _ => {| key := []; state := []; enabled := []; counter := 0 |}
  end.

(** The same instance with a counter three steps from the end of the
    16-byte field, and with its state changed at index 1, outside the mask. *)
Definition nearly_exhausted : rng :=
  {| key := key fresh_selftest; state := state fresh_selftest;
     enabled := enabled fresh_selftest; counter := 2 ^ 128 - 3 |}.

Definition perturbed_selftest : rng :=
  {| key := key fresh_selftest;
     state := match state fresh_selftest with
              | a :: _ :: rest => a :: 0.5%float :: rest
              | st => st
              end;
     enabled := enabled fresh_selftest; counter := counter fresh_selftest |}.

(** A vector with finite entries, the first of which is the float64 [1e200]. *)
Definition large_entry : vec :=
  (0x1.4e718d7d7625ap+664 :: repeat 0 11)%float.

Definition all_finite (x : vec) : bool := forallb PrimFloat.is_finite x.

(** ** float64 values as the standard describes them

    Quantities used to reason about the arithmetic of [float]: the result
    of a rounding with mantissa [M] and exponent [e], the classes of values,
    the exponent of a value ([-1075] for a zero, [1024] for an infinity or
    NaN), and the magnitude of a value in units of [2^-1074], the least
    positive float64. *)
Definition round_result (sx : bool) (M e : Z) : spec_float :=
  match M with
  | Z0 => S754_zero sx
  | Zpos m => if e <=? 971 then S754_finite sx m e else S754_infinity sx
  | Zneg _ => S754_nan
  end.

Definition sf_finite (x : spec_float) : bool :=
  match x with
  | S754_zero _ | S754_finite _ _ _ => true
  | _ => false
  end.

Definition nonneg (x : spec_float) : bool :=
  match x with
  | S754_zero _ => true
  | S754_finite s _ _ | S754_infinity s => negb s
  | S754_nan => false
  end.

Definition lvl (x : spec_float) : Z :=
  match x with
  | S754_zero _ => -1075
  | S754_finite _ _ e => e
  | _ => 1024
  end.

Definition sval (x : spec_float) : Z :=
  match x with
  | S754_finite _ m e => Z.pos m * 2 ^ (e + 1074)
  | _ => 0
  end.

Definition fnonneg (a : float) : bool := nonneg (Prim2SF a).
Definition flvl (a : float) : Z := lvl (Prim2SF a).
Definition fval (a : float) : Z := sval (Prim2SF a).

Definition maxlvl (l : vec) : Z :=
  fold_right (fun a m => Z.max (flvl a) m) (-1075) l.

Definition all_nonneg (l : vec) : Prop :=
  Forall (fun a => fnonneg a = true) l.

(** ** Byte strings and digests: lengths *)

Lemma be_bytes_length (n : nat) (z : Z) : length (be_bytes n z) = n.
Proof. induction n as [|n IH]; simpl; [reflexivity | now rewrite IH]. Qed.

Lemma output_length (p : SHA2.params) (s : SHA2.hstate) :
  length (SHA2.output p s) = (8 * SHA2.wbytes p)%nat.
Proof.
  destruct s as [[[[[[[a b] c] d] e] f] g] h]. unfold SHA2.output.
  cbn [flat_map]. rewrite !length_app, !be_bytes_length. simpl. lia.
Qed.

Lemma sha256_length (m : bytes) : length (sha256 m) = 32%nat.
Proof. unfold sha256, SHA2.digest. now rewrite output_length. Qed.

Lemma sha512_length (m : bytes) : length (sha512 m) = 64%nat.
Proof. unfold sha512, SHA2.digest. now rewrite output_length. Qed.

Lemma pack_d_length (v : float) : length (pack_d v) = 8%nat.
Proof. apply be_bytes_length. Qed.

Lemma vector_to_bytes_length (st : vec) :
  length (vector_to_bytes st) = (8 * length st)%nat.
Proof.
  unfold vector_to_bytes. induction st as [|a st IH]; [reflexivity|].
  cbn [flat_map]. rewrite length_app, pack_d_length, IH. simpl. lia.
Qed.

Lemma serialize_eq (st : vec) : serialize st = vector_to_bytes st.
Proof. reflexivity. Qed.

Lemma to_bytes_ok (n : nat) (z : Z) :
  0 <= z < 256 ^ Z.of_nat n -> to_bytes n z = Ok (be_bytes n z).
Proof.
  intros [H0 H1]. unfold to_bytes.
  destruct (Z.leb_spec 0 z); [|lia]. destruct (Z.ltb_spec z (256 ^ Z.of_nat n)); [|lia].
  reflexivity.
Qed.

Lemma to_bytes_inv (n : nat) (z : Z) (b : bytes) :
  to_bytes n z = Ok b -> 0 <= z < 256 ^ Z.of_nat n /\ b = be_bytes n z.
Proof.
  unfold to_bytes.
  destruct (Z.leb_spec 0 z); destruct (Z.ltb_spec z (256 ^ Z.of_nat n));
    simpl; intros E; inversion E; subst; (split; [lia | reflexivity]).
Qed.

(** ** The outcome monad *)

Lemma bind_Ok_inv {A B} (c : outcome A) (k : A -> outcome B) (b : B) :
  bind c k = Ok b -> exists a, c = Ok a /\ k a = Ok b.
Proof. destruct c; simpl; intros E; try discriminate. eauto. Qed.

Lemma bind_assoc {A B C} (c : outcome A) (k : A -> outcome B)
      (h : B -> outcome C) :
  bind (bind c k) h = bind c (fun a => bind (k a) h).
Proof. destruct c; reflexivity. Qed.

Lemma bind_ext {A B} (c : outcome A) (k k' : A -> outcome B) :
  (forall a, k a = k' a) -> bind c k = bind c k'.
Proof. intros E. destruct c; simpl; auto. Qed.

Ltac bind_inv H :=
  let a := fresh "a" in
  let E := fresh "E" in
  apply bind_Ok_inv in H; destruct H as (a & E & H).

(** ** Arithmetic of the number of blocks *)

Lemma blocks_needed_nonpos (n : Z) : n <= 0 -> blocks_needed n = O.
Proof.
  intros H. unfold blocks_needed.
  assert ((n + 31) / 32 <= 0).
  { apply Z.lt_succ_r. apply Z.div_lt_upper_bound; lia. }
  lia.
Qed.

Lemma blocks_needed_pos (n : Z) :
  0 < n -> blocks_needed n = S (blocks_needed (n - 32)).
Proof.
  intros H. unfold blocks_needed.
  replace (n + 31) with ((n - 32 + 31) + 1 * 32) by lia.
  rewrite Z.div_add by lia.
  assert (0 <= (n - 32 + 31) / 32) by (apply Z.div_pos; lia).
  lia.
Qed.

Lemma blocks_needed_ceil (n : Z) :
  0 < n ->
  32 * (Z.of_nat (blocks_needed n) - 1) < n <= 32 * Z.of_nat (blocks_needed n).
Proof.
  intros H. unfold blocks_needed.
  assert (0 <= (n + 31) / 32) by (apply Z.div_pos; lia).
  rewrite Z2Nat.id by assumption.
  pose proof (Z.div_mod (n + 31) 32 ltac:(lia)).
  pose proof (Z.mod_pos_bound (n + 31) 32 ltac:(lia)). lia.
Qed.

Lemma blocks_needed_le (n : Z) : (blocks_needed n <= Z.to_nat n)%nat.
Proof.
  destruct (Z.le_gt_cases n 0) as [H|H].
  - rewrite blocks_needed_nonpos by assumption. lia.
  - pose proof (blocks_needed_ceil n ltac:(lia)). lia.
Qed.

Lemma blocks_needed_aligned (k : nat) (b : Z) :
  0 <= b ->
  blocks_needed (32 * Z.of_nat k + b) = (k + blocks_needed b)%nat.
Proof.
  intros H. unfold blocks_needed.
  replace (32 * Z.of_nat k + b + 31) with ((b + 31) + Z.of_nat k * 32) by lia.
  rewrite Z.div_add by lia.
  assert (0 <= (b + 31) / 32) by (apply Z.div_pos; lia).
  lia.
Qed.

(** ** Slices *)

Lemma upto_nonneg (out : bytes) (n : Z) :
  0 <= n -> upto out n = firstn (Z.to_nat n) out.
Proof. intros H. unfold upto. destruct (Z.leb_spec 0 n); [reflexivity | lia]. Qed.

Lemma upto_nil (n : Z) : upto [] n = [].
Proof. unfold upto. destruct (0 <=? n); apply firstn_nil. Qed.

Lemma upto_length (out : bytes) (n : Z) :
  0 <= n <= len out -> len (upto out n) = n.
Proof.
  intros [H0 H1]. rewrite upto_nonneg by assumption. unfold len in *.
  rewrite length_firstn. lia.
Qed.

(** ** Arrays: shapes *)

Lemma map2_length {A B C} (f : A -> B -> C) (x : list A) (y : list B) :
  length (map2 f x y) = Nat.min (length x) (length y).
Proof.
  revert y. induction x as [|a x IH]; intros [|b y]; simpl; auto.
Qed.

Lemma broadcast_same (f : float -> float -> float) (x y : vec) :
  length x = length y -> length x <> 1%nat ->
  broadcast f x y = Ok (map2 f x y).
Proof.
  intros E N. unfold broadcast.
  destruct x as [|a [|a' x]]; destruct y as [|b [|b' y]];
    simpl in E; try discriminate; try (exfalso; apply N; reflexivity);
    try reflexivity.
  injection E as E. simpl. rewrite E, Nat.eqb_refl. reflexivity.
Qed.

Lemma broadcast_length (f : float -> float -> float) (x y z : vec) :
  broadcast f x y = Ok z -> length y <> 1%nat -> length z = length y.
Proof.
  unfold broadcast. intros H N.
  destruct x as [|a [|a' x]]; destruct y as [|b [|b' y]];
    try (exfalso; apply N; reflexivity);
    try (simpl in H; discriminate);
    try (inversion H; subst; simpl; rewrite ?length_map; reflexivity).
  destruct (Nat.eqb_spec (length (a :: a' :: x)) (length (b :: b' :: y)))
    as [E|E]; [|discriminate].
  assert (Z : z = map2 f (a :: a' :: x) (b :: b' :: y)) by congruence.
  rewrite Z, map2_length, E. apply Nat.min_id.
Qed.

Lemma roll_right_length (x : vec) : length (roll_right x) = length x.
Proof.
  destruct x as [|a x]; [reflexivity|]. unfold roll_right.
  cbn [length]. rewrite removelast_firstn_len, length_firstn. simpl. lia.
Qed.

Lemma roll_left_length (x : vec) : length (roll_left x) = length x.
Proof.
  destruct x as [|a x]; [reflexivity|]. simpl. rewrite length_app. simpl. lia.
Qed.

Lemma f_purity_length (x : vec) : length (f_purity x) = length x.
Proof.
  unfold f_purity, full_like, np_abs.
  destruct (PrimFloat.ltb _ _); now rewrite ?repeat_length, ?length_map.
Qed.

Lemma f_law_length (x : vec) : length (f_law x) = length x.
Proof. apply length_map. Qed.

Lemma f_love_length (x : vec) : length (f_love x) = length x.
Proof. unfold f_love. now rewrite !length_map. Qed.

Lemma f_wisdom_length (x : vec) : length (f_wisdom x) = length x.
Proof.
  unfold f_wisdom.
  rewrite !map2_length, roll_right_length, roll_left_length. lia.
Qed.

Lemma f_glory_length (x : vec) : length (f_glory x) = length x.
Proof.
  unfold f_glory, full_like, np_abs.
  destruct (PrimFloat.ltb _ _); now rewrite ?repeat_length, ?length_map.
Qed.

Lemma f_life_length (th : float -> float) (x : vec) :
  length (f_life th x) = length x.
Proof. unfold f_life. now rewrite !length_map. Qed.

Lemma pipeline_length (th : float -> float) (x : vec) :
  length (pipeline th x) = length x.
Proof.
  unfold pipeline, f_truth.
  now rewrite f_glory_length, f_life_length, f_wisdom_length, f_love_length,
    f_law_length, f_purity_length.
Qed.

Lemma hash_vals_length (src : bytes) : length (hash_vals src) = N_DIM.
Proof. unfold hash_vals. now rewrite length_map, length_seq. Qed.

(** On a 64-byte digest the chunk of dimension [i] is the four bytes from
    [4 i]: the index never wraps and no chunk is short. *)
Lemma chunk_at_digest (src : bytes) (i : nat) :
  length src = 64%nat -> (i < 12)%nat ->
  chunk_at src i = slice src (4 * i) (4 * i + 4).
Proof.
  intros L Hi. unfold chunk_at. rewrite L.
  rewrite Nat.mod_small by lia. rewrite (Nat.mul_comm i 4).
  assert (S4 : length (slice src (4 * i) (4 * i + 4)) = 4%nat).
  { unfold slice. rewrite length_firstn, length_skipn, L. lia. }
  rewrite S4. reflexivity.
Qed.

Lemma hash_vals_digest (src : bytes) :
  length src = 64%nat -> hash_vals src = chunk_values src.
Proof.
  intros L. unfold hash_vals, chunk_values, unit_value.
  apply map_ext_in. intros i Hi. apply in_seq in Hi.
  rewrite chunk_at_digest by (assumption || (unfold N_DIM in Hi; lia)).
  reflexivity.
Qed.

Lemma chunk_values_length (d : bytes) : length (chunk_values d) = 12%nat.
Proof. unfold chunk_values. now rewrite length_map, length_seq. Qed.

Lemma map2_repeat_l {A B C D} (f : B -> C -> D) (g : A -> B) (a : A)
      (l : list C) : forall n : nat,
  length l = n -> map2 f (map g (repeat a n)) l = map (fun u => f (g a) u) l.
Proof.
  induction l as [|c l IH]; intros [|n] E; simpl in *; try discriminate; auto.
  f_equal. apply IH. now injection E.
Qed.

(** ** Construction from an explicit seed *)

Lemma init_explicit (env : entropy) (s : bytes) :
  init env (Some s) =
  Ok {| key := initial_key (explicit_seed_material s) (bytes_lit "|key");
        state := initial_state (explicit_seed_material s) (bytes_lit "|init");
        enabled := enable_mask;
        counter := 0 |}.
Proof.
  unfold init, seed_material, explicit_seed_material, initial_key, initial_state.
  set (m := if (length s <? 32)%nat then sha256 s else s).
  assert (M : (if (length s <? 32)%nat then Ok (sha256 s) else Ok s) = Ok m)
    by (unfold m; now destruct (length s <? 32)%nat).
  rewrite M; clear M. cbn [bind].
  rewrite broadcast_same
    by (rewrite ?length_map, ?repeat_length, ?hash_vals_length;
        (reflexivity || discriminate)).
  cbn [bind]. rewrite hash_vals_digest by apply sha512_length.
  change (float_of_Z (Z.of_nat N_DIM)) with 12%float.
  rewrite map2_repeat_l
    by (now rewrite length_map, chunk_values_length).
  rewrite map_map. reflexivity.
Qed.

Lemma init_wf (env : entropy) (s : bytes) (g : rng) :
  init env (Some s) = Ok g -> wf g /\ counter g = 0.
Proof.
  rewrite init_explicit. intros H. injection H as <-.
  unfold wf, initial_state. cbn [state enabled counter].
  rewrite length_map, chunk_values_length. repeat split; lia.
Qed.

(** ** No call of the model runs out of fuel *)

Lemma terminates_bind {A B} (c : outcome A) (k : A -> outcome B) :
  terminates c -> (forall a, terminates (k a)) -> terminates (bind c k).
Proof. unfold terminates. destruct c; simpl; auto; discriminate. Qed.

Lemma terminates_broadcast f x y : terminates (broadcast f x y).
Proof.
  unfold terminates, broadcast.
  destruct x as [|a [|a' x]]; destruct y as [|b [|b' y]]; try discriminate;
    destruct (Nat.eqb _ _); discriminate.
Qed.

Lemma terminates_to_bytes n z : terminates (to_bytes n z).
Proof. unfold terminates, to_bytes. destruct (_ && _); discriminate. Qed.

Section Properties.
Variable np_tanh : float -> float.

#[local] Set Warnings "-notation-for-abbreviation".
Local Notation _step := (Chaos._step np_tanh).
Local Notation steps := (Chaos.steps np_tanh).
Local Notation random_bytes := (Chaos.random_bytes np_tanh).
Local Notation random_bytes_loop := (Chaos.random_bytes_loop np_tanh).
Local Notation emit_block := (Spec.emit_block np_tanh).
Local Notation emit_blocks := (Spec.emit_blocks np_tanh).

(** *** One step *)

(** The dispatch by name reaches the seven transforms in order, and never
    raises KeyError. *)
Lemma for_principles_pipeline (x : vec) :
  for_principles np_tanh PRINCIPLES x = Ok (pipeline np_tanh x).
Proof. reflexivity. Qed.

Lemma step_advance (g : rng) : _step g = advance np_tanh g.
Proof.
  unfold Chaos._step, Spec.advance, step_vector.
  destruct (broadcast PrimFloat.mul (state g) (enabled g)) as [m| |];
    try reflexivity.
  cbn [bind]. rewrite for_principles_pipeline. cbn [bind].
  destruct (to_bytes 16 (counter g)) as [ctr| |]; try reflexivity.
  cbn [bind]. rewrite hash_vals_digest by apply sha512_length.
  reflexivity.
Qed.

Lemma step_inv (g g' : rng) :
  _step g = Ok g' ->
  counter g' = counter g + 1 /\ enabled g' = enabled g /\
  length (state g') = N_DIM /\ length (key g') = 32%nat /\
  0 <= counter g < 2 ^ 128.
Proof.
  unfold Chaos._step. intros H.
  bind_inv H. bind_inv H. bind_inv H. inversion H; subst; clear H.
  cbn [state enabled counter key].
  apply to_bytes_inv in E0. destruct E0 as [R _].
  apply broadcast_length in E1;
    [|rewrite length_map, hash_vals_length; discriminate].
  rewrite length_map, hash_vals_length in E1.
  repeat split; try lia; try apply sha256_length.
  destruct (PrimFloat.ltb _ _); now rewrite ?length_map.
Qed.

Lemma step_ok (g : rng) :
  wf g -> counter g < 2 ^ 128 ->
  exists g', _step g = Ok g' /\ wf g' /\ counter g' = counter g + 1.
Proof.
  intros (Ls & Le & Hc) Hlt. unfold Chaos._step, step_vector.
  rewrite broadcast_same by (rewrite ?Ls, ?Le; (reflexivity || discriminate)).
  cbn [bind]. rewrite for_principles_pipeline. cbn [bind].
  rewrite to_bytes_ok by (change (256 ^ Z.of_nat 16) with (2 ^ 128); lia).
  cbn [bind].
  assert (Lp : length (pipeline np_tanh (map2 PrimFloat.mul (state g) (enabled g)))
               = N_DIM).
  { rewrite pipeline_length, map2_length, Ls, Le. reflexivity. }
  rewrite broadcast_same
    by (rewrite Lp, ?length_map, ?hash_vals_length; (reflexivity || discriminate)).
  cbn [bind]. eexists. split; [reflexivity|]. split; [|reflexivity].
  unfold wf. cbn [state enabled counter].
  repeat split; try assumption; try lia.
  destruct (PrimFloat.ltb _ _);
    rewrite ?length_map, map2_length, Lp, length_map, hash_vals_length;
    reflexivity.
Qed.

Lemma steps_inv (k : nat) : forall g g',
  steps k g = Ok g' ->
  counter g' = counter g + Z.of_nat k /\ enabled g' = enabled g.
Proof.
  induction k as [|k IH]; intros g g' H.
  - inversion H; subst. split; [lia | reflexivity].
  - cbn [Chaos.steps] in H. bind_inv H.
    apply step_inv in E. destruct E as (C & En & _).
    apply IH in H. destruct H as (C' & En'). split; [lia | congruence].
Qed.

Lemma steps_ok (k : nat) : forall g,
  wf g -> counter g + Z.of_nat k <= 2 ^ 128 ->
  exists g', steps k g = Ok g' /\ wf g' /\
             counter g' = counter g + Z.of_nat k.
Proof.
  induction k as [|k IH]; intros g W H.
  - exists g. repeat split; try apply W. simpl. lia.
  - destruct (step_ok g W ltac:(lia)) as (g1 & E1 & W1 & C1).
    destruct (IH g1 W1 ltac:(lia)) as (g2 & E2 & W2 & C2).
    exists g2. cbn [Chaos.steps]. rewrite E1. cbn [bind].
    repeat split; try assumption; try apply W2. lia.
Qed.

(** *** Blocks *)

Lemma emit_block_inv (g g' : rng) (b : bytes) :
  emit_block g = Ok (b, g') ->
  counter g' = counter g + 6 /\ enabled g' = enabled g /\
  exists g5, steps 5 g = Ok g5 /\ state g' = state g5 /\ key g' = key g5 /\
    b = sha256 (serialize (state g5) ++ key g5 ++ be_bytes 16 (counter g + 5)).
Proof.
  unfold Spec.emit_block. intros H. bind_inv H. bind_inv H.
  inversion H; subst; clear H. cbn [state enabled counter key].
  pose proof (steps_inv _ _ _ E) as (C & En).
  change (Z.of_nat 5) with 5 in C.
  apply to_bytes_inv in E0. destruct E0 as (_ & ->).
  repeat split; try lia; try assumption.
  exists a. rewrite C. repeat split; try reflexivity. exact E.
Qed.

Lemma emit_block_ok (g : rng) :
  wf g -> counter g + 6 <= 2 ^ 128 ->
  exists b g', emit_block g = Ok (b, g') /\ wf g'.
Proof.
  intros W H. unfold Spec.emit_block.
  destruct (steps_ok 5 g W ltac:(lia)) as (g5 & E & W5 & C).
  rewrite E. cbn [bind].
  rewrite to_bytes_ok
    by (change (256 ^ Z.of_nat 16) with (2 ^ 128); destruct W as (_ & _ & ?); lia).
  cbn [bind]. do 2 eexists. split; [reflexivity|].
  destruct W5 as (? & ? & ?). unfold wf. cbn [state enabled counter].
  repeat split; try assumption; lia.
Qed.

Lemma emit_blocks_counter (k : nat) : forall (g g' : rng) (bs : list bytes),
  emit_blocks k g = Ok (bs, g') ->
  counter g' = counter g + 6 * Z.of_nat k /\ enabled g' = enabled g.
Proof.
  induction k as [|k IH]; intros g g' bs H.
  - inversion H; subst. split; [lia | reflexivity].
  - cbn [Spec.emit_blocks] in H.
    bind_inv H. destruct a as [b g1]. bind_inv H. destruct a as [bs' g2].
    inversion H; subst. apply emit_block_inv in E. destruct E as (C & En & _).
    apply IH in E0. destruct E0 as (C' & En'). split; [lia | congruence].
Qed.

Lemma emit_blocks_ok (k : nat) : forall (g : rng),
  wf g -> counter g + 6 * Z.of_nat k <= 2 ^ 128 ->
  exists bs g', emit_blocks k g = Ok (bs, g') /\ wf g'.
Proof.
  induction k as [|k IH]; intros g W H.
  - exists [], g. split; [reflexivity | assumption].
  - destruct (emit_block_ok g W ltac:(lia)) as (b & g1 & E1 & W1).
    pose proof (emit_block_inv _ _ _ E1) as (C1 & _).
    destruct (IH g1 W1 ltac:(lia)) as (bs & g2 & E2 & W2).
    exists (b :: bs), g2. cbn [Spec.emit_blocks]. rewrite E1. cbn [bind].
    rewrite E2. split; [reflexivity | assumption].
Qed.


Lemma emit_blocks_plus (k1 k2 : nat) (g : rng) :
  emit_blocks (k1 + k2) g =
  ('(b1, g1) <- emit_blocks k1 g ;;
   '(b2, g2) <- emit_blocks k2 g1 ;;
   Ok (b1 ++ b2, g2)).
Proof.
  revert g. induction k1 as [|k1 IH]; intros g.
  - simpl. destruct (emit_blocks k2 g) as [[b2 g2]| |]; reflexivity.
  - cbn [Nat.add Spec.emit_blocks].
    destruct (emit_block g) as [[b g1]| |]; try reflexivity.
    cbn [bind]. rewrite IH.
    destruct (emit_blocks k1 g1) as [[b1 g1']| |]; try reflexivity.
    cbn [bind].
    destruct (emit_blocks k2 g1') as [[b2 g2]| |]; reflexivity.
Qed.

Lemma emit_block_length (g g' : rng) (b : bytes) :
  emit_block g = Ok (b, g') -> length b = 32%nat.
Proof.
  unfold Spec.emit_block. intros H.
  bind_inv H. bind_inv H. inversion H; subst. apply sha256_length.
Qed.

Lemma emit_blocks_shape (k : nat) : forall (g g' : rng) (bs : list bytes),
  emit_blocks k g = Ok (bs, g') ->
  length bs = k /\ Forall (fun b => length b = 32%nat) bs /\
  length (concat bs) = (32 * k)%nat.
Proof.
  induction k as [|k IH]; intros g g' bs H.
  - inversion H; subst. repeat split; constructor.
  - cbn [Spec.emit_blocks] in H.
    bind_inv H. destruct a as [b g1]. bind_inv H. destruct a as [bs' g2].
    inversion H; subst. apply emit_block_length in E.
    destruct (IH _ _ _ E0) as (L & F & C).
    repeat split.
    + simpl. now rewrite L.
    + now constructor.
    + cbn [concat]. rewrite length_app, E, C. lia.
Qed.

(** *** The loop of [random_bytes] emits blocks *)

Lemma random_bytes_loop_blocks (fuel : nat) : forall (n : Z) (out : bytes) (g : rng),
  (blocks_needed (n - len out) <= fuel)%nat ->
  random_bytes_loop fuel n out g =
  ('(bs, g') <- emit_blocks (blocks_needed (n - len out)) g ;;
   Ok (upto (out ++ concat bs) n, g')).
Proof.
  induction fuel as [|f IH]; intros n out g Hf.
  - assert (N : blocks_needed (n - len out) = O) by lia.
    rewrite N. simpl.
    destruct (Z.ltb_spec (len out) n) as [Hlt|Hge].
    + rewrite blocks_needed_pos in N by lia. discriminate.
    + now rewrite app_nil_r.
  - cbn [Chaos.random_bytes_loop].
    destruct (Z.ltb_spec (len out) n) as [Hlt|Hge].
    + rewrite blocks_needed_pos in * by lia.
      cbn [Spec.emit_blocks]. unfold Spec.emit_block.
      destruct (steps 5 g) as [g5| |]; try reflexivity. cbn [bind].
      destruct (to_bytes 16 (counter g5)) as [ctr| |]; try reflexivity.
      cbn [bind].
      change (serialize (state g5)) with (vector_to_bytes (state g5)).
      set (block := sha256 (vector_to_bytes (state g5) ++ key g5 ++ ctr)).
      assert (L : len (out ++ block) = len out + 32).
      { unfold len. rewrite length_app. unfold block.
        rewrite sha256_length. lia. }
      rewrite IH; rewrite L;
        replace (n - (len out + 32)) with (n - len out - 32) by lia;
        [|lia].
      match goal with |- context [Spec.emit_blocks _ ?k ?gb] =>
        destruct (Spec.emit_blocks np_tanh k gb) as [[bs g2]| |]
      end; try reflexivity.
      cbn [bind concat]. now rewrite app_assoc.
    + rewrite blocks_needed_nonpos by lia. simpl. now rewrite app_nil_r.
Qed.

Lemma random_bytes_blocks (n : Z) (g : rng) :
  random_bytes n g =
  ('(bs, g') <- emit_blocks (blocks_needed n) g ;;
   Ok (upto (concat bs) n, g')).
Proof.
  unfold Chaos.random_bytes.
  rewrite random_bytes_loop_blocks.
  - unfold len. simpl. now rewrite Z.sub_0_r.
  - unfold len. simpl. rewrite Z.sub_0_r. apply blocks_needed_le.
Qed.

(** More fuel than [random_bytes] gives changes nothing. *)
Lemma random_bytes_fuel (n : Z) (g : rng) (fuel : nat) :
  (Z.to_nat n <= fuel)%nat ->
  random_bytes_loop fuel n [] g = random_bytes n g.
Proof.
  intros H. rewrite random_bytes_blocks, random_bytes_loop_blocks.
  - unfold len. simpl. now rewrite Z.sub_0_r.
  - unfold len. simpl. rewrite Z.sub_0_r.
    pose proof (blocks_needed_le n). lia.
Qed.

Lemma terminates_step (g : rng) : terminates (_step g).
Proof.
  unfold Chaos._step, step_vector.
  apply terminates_bind; [|intros st1].
  - apply terminates_bind; [apply terminates_broadcast|].
    intros m. rewrite for_principles_pipeline. discriminate.
  - apply terminates_bind; [apply terminates_to_bytes|]. intros c.
    apply terminates_bind; [apply terminates_broadcast|]. discriminate.
Qed.

Lemma terminates_steps (k : nat) (g : rng) : terminates (steps k g).
Proof.
  revert g. induction k as [|k IH]; intros g; [discriminate|].
  cbn [Chaos.steps]. apply terminates_bind; [apply terminates_step | exact IH].
Qed.

Lemma terminates_emit_blocks (k : nat) (g : rng) : terminates (emit_blocks k g).
Proof.
  revert g. induction k as [|k IH]; intros g; [discriminate|].
  cbn [Spec.emit_blocks]. apply terminates_bind.
  - unfold Spec.emit_block.
    apply terminates_bind; [apply terminates_steps|]. intros g5.
    apply terminates_bind; [apply terminates_to_bytes|]. discriminate.
  - intros [b g1]. apply terminates_bind; [apply IH|].
    intros [bs g2]. discriminate.
Qed.

Lemma terminates_random_bytes (n : Z) (g : rng) : terminates (random_bytes n g).
Proof.
  rewrite random_bytes_blocks.
  apply terminates_bind; [apply terminates_emit_blocks|].
  intros [bs g']. discriminate.
Qed.

(** *** What a call of [random_bytes] returns *)

Lemma random_bytes_inv (n : Z) (g g' : rng) (out : bytes) :
  random_bytes n g = Ok (out, g') ->
  exists bs, emit_blocks (blocks_needed n) g = Ok (bs, g') /\
             out = upto (concat bs) n /\
             counter g' = counter g + 6 * Z.of_nat (blocks_needed n) /\
             (0 <= n -> len out = n).
Proof.
  rewrite random_bytes_blocks. intros H. bind_inv H. destruct a as [bs g1].
  inversion H; subst; clear H. exists bs.
  pose proof (emit_blocks_shape _ _ _ _ E) as (_ & _ & L).
  pose proof (emit_blocks_counter _ _ _ _ E) as (C & _).
  repeat split; try assumption. intros Hn. apply upto_length. unfold len.
  destruct (Z.eq_dec n 0) as [->|]; [lia|].
  pose proof (blocks_needed_ceil n ltac:(lia)). lia.
Qed.

Lemma random_bytes_ok (n : Z) (g : rng) :
  wf g -> counter g + 6 * Z.of_nat (blocks_needed n) <= 2 ^ 128 ->
  exists out g', random_bytes n g = Ok (out, g') /\ wf g'.
Proof.
  intros W H.
  destruct (emit_blocks_ok (blocks_needed n) g W H) as (bs & g' & E & W').
  exists (upto (concat bs) n), g'. rewrite random_bytes_blocks, E.
  split; [reflexivity | assumption].
Qed.

End Properties.

(** ** The claims about the byte extractor and the step *)

Section Claims.
Variable np_tanh : float -> float.

#[local] Set Warnings "-notation-for-abbreviation".
Local Notation _step := (Chaos._step np_tanh).
Local Notation steps := (Chaos.steps np_tanh).
Local Notation random_bytes := (Chaos.random_bytes np_tanh).
Local Notation seeded_output := (Chaos.seeded_output np_tanh).
Local Notation emit_block := (Spec.emit_block np_tanh).
Local Notation emit_blocks := (Spec.emit_blocks np_tanh).

(** C1: two generators constructed independently from the same seed bytes
    produce the same output for every requested length: whatever the
    operating system would have supplied to each construction (entropy,
    clock, process identifier), the two calls have the same outcome.  In
    particular, for the seed of [selftest] and 64 bytes, both calls return
    the same 64 bytes and the determinism check of [selftest] passes. *)
Theorem C1_determinism (env1 env2 : entropy) (seed : bytes) (n : Z) :
  seeded_output env1 seed n = seeded_output env2 seed n /\
  (exists a : bytes,
      seeded_output env1 selftest_seed 64 = Ok a /\
      seeded_output env2 selftest_seed 64 = Ok a /\
      length a = 64%nat) /\
  selftest_determinism np_tanh env1 env2 = Ok true.
Proof.
  assert (D : forall e1 e2 s m, seeded_output e1 s m = seeded_output e2 s m).
  { intros e1 e2 s m. unfold Chaos.seeded_output.
    rewrite (init_explicit e1), (init_explicit e2). reflexivity. }
  assert (R : forall e s, exists a, seeded_output e s 64 = Ok a
                                    /\ length a = 64%nat).
  { intros e s. unfold Chaos.seeded_output. rewrite init_explicit. cbn [bind].
    match goal with |- context [Chaos.random_bytes _ _ ?g] => set (g0 := g) end.
    assert (W : wf g0 /\ counter g0 = 0)
      by (apply (init_wf e s); apply init_explicit).
    destruct W as (W & C0).
    destruct (random_bytes_ok np_tanh 64 g0 W) as (out & g' & E & _).
    { rewrite C0. change (blocks_needed 64) with 2%nat. lia. }
    rewrite E. cbn [bind]. exists out. split; [reflexivity|].
    apply random_bytes_inv in E. destruct E as (_ & _ & _ & _ & L).
    specialize (L ltac:(lia)). unfold len in L. lia. }
  split; [apply D|].
  unfold Chaos.selftest_determinism. cbv zeta.
  generalize selftest_seed. intros s.
  destruct (R env1 s) as (a & E1 & L).
  assert (E2 : seeded_output env2 s 64 = Ok a)
    by (rewrite <- E1; apply D).
  split; [exists a; auto|].
  rewrite E1, E2. cbn [bind].
  destruct (list_eq_dec byte_eq_dec a a) as [_|N]; [reflexivity|].
  exfalso. apply N. reflexivity.
Qed.

(** C2: for every n >= 0, a call of random_bytes(n) that returns gives a
    byte string of length exactly n (n = 0 and lengths that are not
    multiples of 32 included); a call that does not return raises an
    exception and gives no bytes; and the call does return on every
    well-formed instance whose counter leaves room for the 6 increments
    of each block below 2^128 (the width of the 16-byte counter field). *)
Theorem C2_exact_length (n : Z) (g : rng) :
  0 <= n ->
  ((exists out g', random_bytes n g = Ok (out, g') /\ len out = n) \/
   (exists e, random_bytes n g = Raise e)) /\
  (wf g -> counter g + 6 * Z.of_nat (blocks_needed n) <= 2 ^ 128 ->
   exists out g', random_bytes n g = Ok (out, g') /\ len out = n).
Proof.
  intros Hn. split.
  - destruct (random_bytes n g) as [[out g']|e|] eqn:E.
    + left. exists out, g'. split; [reflexivity|].
      apply random_bytes_inv in E.
      destruct E as (_ & _ & _ & _ & L). now apply L.
    + right. now exists e.
    + now apply terminates_random_bytes in E.
  - intros W H. destruct (random_bytes_ok np_tanh n g W H) as (out & g' & E & _).
    exists out, g'. split; [assumption|].
    apply random_bytes_inv in E.
    destruct E as (_ & _ & _ & _ & L). now apply L.
Qed.

(** C3: for every n > 0, random_bytes(n) is the first n bytes of k =
    ceil(n/32) blocks emitted one after the other; each block comes after
    exactly 5 steps, is the 32-byte SHA-256 digest of (serialized state,
    current key, 16-byte big-endian counter), and is followed by one
    increment of the counter; every step increments the counter by 1; so
    a call that returns has increased the counter by exactly 6 k. *)
Theorem C3_block_structure (n : Z) (g : rng) :
  0 < n ->
  let k := blocks_needed n in
  32 * (Z.of_nat k - 1) < n <= 32 * Z.of_nat k /\
  random_bytes n g =
    ('(bs, g') <- emit_blocks k g ;;
     Ok (firstn (Z.to_nat n) (concat bs), g')) /\
  (forall bs g', emit_blocks k g = Ok (bs, g') ->
     length bs = k /\ Forall (fun b => length b = 32%nat) bs) /\
  (forall g0 b g1, emit_block g0 = Ok (b, g1) ->
     exists g5, steps 5 g0 = Ok g5 /\
       counter g5 = counter g0 + 5 /\
       b = sha256 (vector_to_bytes (state g5) ++ key g5
                   ++ be_bytes 16 (counter g5)) /\
       state g1 = state g5 /\ key g1 = key g5 /\
       counter g1 = counter g5 + 1) /\
  (forall g0 g1, _step g0 = Ok g1 -> counter g1 = counter g0 + 1) /\
  (forall out g', random_bytes n g = Ok (out, g') ->
     counter g' = counter g + 6 * Z.of_nat k).
Proof.
  intros Hn k. repeat split.
  - apply (blocks_needed_ceil n Hn).
  - apply (blocks_needed_ceil n Hn).
  - rewrite random_bytes_blocks. apply bind_ext. intros [bs g'].
    now rewrite upto_nonneg by lia.
  - now apply emit_blocks_shape in H.
  - now apply emit_blocks_shape in H.
  - intros g0 b g1 H.
    destruct (emit_block_inv np_tanh _ _ _ H) as (C & _ & g5 & S5 & St & K & B).
    pose proof (steps_inv np_tanh _ _ _ S5) as (C5 & _).
    change (Z.of_nat 5) with 5 in C5.
    exists g5. repeat split; try assumption; try lia.
    rewrite C5. exact B.
  - intros g0 g1 H. now apply step_inv in H.
  - intros out g' H. apply random_bytes_inv in H.
    destruct H as (_ & _ & _ & C & _). exact C.
Qed.

(** C4: one step masks the state by the enable mask, applies the seven
    transforms in the order Truth, Purity, Law, Love, Wisdom, Life, Glory
    (the dispatch by name never fails), adds the jitter obtained from the
    SHA-512 digest of (key, 16-byte big-endian counter) by the 4-byte
    chunk mapping (v / 2^32) * 2 - 1 scaled by 1e-9, divides by the L1
    norm when it exceeds 1e-12, serializes the state as 12 big-endian
    8-byte doubles, sets the key to the SHA-256 digest of (old key,
    serialized state, counter before the increment) and increments the
    counter by 1: [_step] is [advance], the step as the specification
    words it. *)
Theorem C4_step_sequence (g : rng) :
  _step g = advance np_tanh g /\
  (forall x, for_principles np_tanh PRINCIPLES x =
             Ok (f_glory (f_life np_tanh (f_wisdom (f_love (f_law
                   (f_purity (f_truth x)))))))) /\
  (forall g', _step g = Ok g' ->
     length (state g') = 12%nat /\
     length (serialize (state g')) = 96%nat /\
     key g' = sha256 (key g ++ serialize (state g')
                      ++ be_bytes 16 (counter g)) /\
     counter g' = counter g + 1 /\
     enabled g' = enabled g).
Proof.
  split; [apply step_advance|]. split; [intros x; reflexivity|].
  intros g' H. pose proof (step_inv np_tanh _ _ H) as (C & En & L & _ & _).
  repeat split; try assumption.
  - change (serialize (state g')) with (vector_to_bytes (state g')).
    rewrite vector_to_bytes_length, L. reflexivity.
  - rewrite step_advance in H. unfold advance in H.
    bind_inv H. bind_inv H. bind_inv H. injection H as <-.
    cbn [key state]. apply to_bytes_inv in E0. destruct E0 as (_ & ->).
    reflexivity.
Qed.

(** C9: for every n <= 0, random_bytes(n) returns the empty byte string
    and the instance it was called on, unchanged: same key, state vector,
    enable mask and counter; no block is emitted. *)
Theorem C9_nonpositive_request (n : Z) (g : rng) :
  n <= 0 ->
  random_bytes n g = Ok ([], g) /\ blocks_needed n = O.
Proof.
  intros Hn. split; [|now apply blocks_needed_nonpos].
  unfold Chaos.random_bytes.
  replace (Z.to_nat n) with O by lia. cbn [Chaos.random_bytes_loop].
  change (len (@nil byte)) with 0.
  destruct (Z.ltb_spec 0 n) as [H|H]; [lia|]. now rewrite upto_nil.
Qed.

(** C10: for every a >= 0 that is a multiple of 32 and every b >= 0,
    random_bytes(a) followed by random_bytes(b) on one instance gives,
    concatenated, what one call random_bytes(a + b) gives from the same
    internal state, and leaves the instance in the same state; when one
    side raises, so does the other, with the same exception. *)
Theorem C10_split_at_block_boundary (a b : Z) (g : rng) :
  0 <= a -> a mod 32 = 0 -> 0 <= b ->
  ('(o1, g1) <- random_bytes a g ;;
   '(o2, g2) <- random_bytes b g1 ;;
   Ok (o1 ++ o2, g2))
  = random_bytes (a + b) g.
Proof.
  intros Ha Hm Hb.
  assert (exists k : nat, a = 32 * Z.of_nat k) as (k & ->).
  { exists (Z.to_nat (a / 32)).
    pose proof (Z.div_mod a 32 ltac:(lia)).
    assert (0 <= a / 32) by (apply Z.div_pos; lia). lia. }
  rewrite !random_bytes_blocks.
  rewrite (blocks_needed_aligned k b Hb).
  replace (blocks_needed (32 * Z.of_nat k)) with k
    by (replace (32 * Z.of_nat k) with (32 * Z.of_nat k + 0) by lia;
        rewrite blocks_needed_aligned by lia;
        change (blocks_needed 0) with O; lia).
  rewrite emit_blocks_plus.
  destruct (emit_blocks k g) as [[b1 g1]| |] eqn:E1; try reflexivity.
  cbn [bind]. rewrite random_bytes_blocks.
  destruct (emit_blocks (blocks_needed b) g1) as [[b2 g2]| |]; try reflexivity.
  cbn [bind]. apply emit_blocks_shape in E1. destruct E1 as (_ & _ & L).
  rewrite !upto_nonneg by lia. rewrite concat_app.
  rewrite (firstn_all2 (n := Z.to_nat (32 * Z.of_nat k))) by lia.
  replace (Z.to_nat (32 * Z.of_nat k + b))
    with (length (concat b1) + Z.to_nat b)%nat by lia.
  now rewrite firstn_app_2.
Qed.

End Claims.

(** ** The claims about construction and the transforms *)

(** ** float64 arithmetic: rounding, sums of non-negative values, quotients *)

Lemma fexp_eq (x : Z) : fexp prec emax x = Z.max (x - 53) (-1074).
Proof. reflexivity. Qed.

Lemma digits2_pos_bounds (p : positive) :
  2 ^ (Z.pos (digits2_pos p) - 1) <= Z.pos p < 2 ^ Z.pos (digits2_pos p).
Proof.
  induction p as [p IH|p IH|]; cbn [digits2_pos];
    [| |change (2 ^ (1 - 1) <= 1 < 2 ^ 1); lia].
  all: rewrite Pos2Z.inj_succ;
    replace (Z.succ (Z.pos (digits2_pos p)) - 1)
      with (Z.succ (Z.pos (digits2_pos p) - 1)) by lia;
    rewrite !Z.pow_succ_r by lia; lia.
Qed.

Lemma Zdigits2_nonneg (m : Z) : 0 <= Zdigits2 m.
Proof. destruct m; simpl; lia. Qed.

Lemma Zdigits2_upper (m : Z) : 0 <= m -> m < 2 ^ Zdigits2 m.
Proof.
  destruct m as [|p|p]; intros H; [reflexivity| |lia].
  apply digits2_pos_bounds.
Qed.

Lemma Zdigits2_lower (m : Z) : 0 < m -> 2 ^ (Zdigits2 m - 1) <= m.
Proof.
  destruct m as [|p|p]; intros H; try lia. apply digits2_pos_bounds.
Qed.

Lemma Zdigits2_le (m k : Z) : 0 <= m -> 0 <= k -> m < 2 ^ k -> Zdigits2 m <= k.
Proof.
  intros Hm Hk H. destruct (Z.eq_dec m 0) as [->|N]; [exact Hk|].
  pose proof (Zdigits2_lower m ltac:(lia)) as L.
  pose proof (Zdigits2_nonneg m).
  destruct (Z.le_gt_cases (Zdigits2 m) k) as [|G]; [assumption|].
  assert (2 ^ k <= 2 ^ (Zdigits2 m - 1)) by (apply Z.pow_le_mono_r; lia).
  lia.
Qed.

Lemma Zdigits2_gt (m k : Z) : 0 <= k -> 2 ^ k <= m -> k < Zdigits2 m.
Proof.
  intros Hk H.
  assert (0 < 2 ^ k) by (apply Z.pow_pos_nonneg; lia).
  pose proof (Zdigits2_upper m ltac:(lia)) as U.
  pose proof (Zdigits2_nonneg m).
  destruct (Z.lt_ge_cases k (Zdigits2 m)) as [|G]; [assumption|].
  assert (2 ^ Zdigits2 m <= 2 ^ k) by (apply Z.pow_le_mono_r; lia).
  lia.
Qed.

(** Shifting a mantissa to the right. *)
Lemma shr_1_m (mrs : shr_record) :
  0 <= shr_m mrs -> shr_m (shr_1 mrs) = shr_m mrs / 2.
Proof.
  destruct mrs as [m r s]. cbn [shr_m]. intros H.
  destruct m as [|[p|p|]|p]; cbn [shr_1 shr_m]; try lia; try reflexivity.
  - rewrite Pos2Z.inj_xI. apply (Z.div_unique _ _ _ 1); lia.
  - rewrite Pos2Z.inj_xO. apply (Z.div_unique _ _ _ 0); lia.
Qed.

Lemma iter_shr_1_m (p : positive) : forall mrs : shr_record,
  0 <= shr_m mrs ->
  shr_m (iter_pos shr_1 p mrs) = shr_m mrs / 2 ^ Z.pos p.
Proof.
  induction p as [p IH|p IH|]; intros mrs H; cbn [iter_pos].
  - assert (H1 : 0 <= shr_m (shr_1 mrs))
      by (rewrite shr_1_m by assumption; apply Z.div_pos; lia).
    assert (H2 : 0 <= shr_m (iter_pos shr_1 p (shr_1 mrs)))
      by (rewrite IH by assumption; apply Z.div_pos; [lia|];
          apply Z.pow_pos_nonneg; lia).
    rewrite IH, IH, shr_1_m by assumption.
    rewrite !Z.div_div by (try apply Z.pow_pos_nonneg; lia).
    f_equal.
    replace (Z.pos p~1) with (1 + Z.pos p + Z.pos p) by lia.
    rewrite !Z.pow_add_r by lia. change (2 ^ 1) with 2. ring.
  - assert (H2 : 0 <= shr_m (iter_pos shr_1 p mrs))
      by (rewrite IH by assumption; apply Z.div_pos; [lia|];
          apply Z.pow_pos_nonneg; lia).
    rewrite IH, IH by assumption.
    rewrite !Z.div_div by (try apply Z.pow_pos_nonneg; lia).
    f_equal.
    replace (Z.pos p~0) with (Z.pos p + Z.pos p) by lia.
    rewrite !Z.pow_add_r by lia. reflexivity.
  - now apply shr_1_m.
Qed.

Lemma shr_spec (mrs : shr_record) (e n : Z) :
  0 <= shr_m mrs ->
  shr_m (fst (shr mrs e n)) = shr_m mrs / 2 ^ Z.max 0 n /\
  snd (shr mrs e n) = e + Z.max 0 n /\
  (n <= 0 -> fst (shr mrs e n) = mrs).
Proof.
  intros H. destruct n as [|p|p]; cbn [shr fst snd].
  - change (Z.max 0 0) with 0. rewrite Z.div_1_r. repeat split; lia.
  - rewrite iter_shr_1_m by assumption.
    replace (Z.max 0 (Z.pos p)) with (Z.pos p) by lia. repeat split; lia.
  - replace (Z.max 0 (Z.neg p)) with 0 by lia.
    rewrite Z.div_1_r. repeat split; lia.
Qed.

Lemma shr_m_of_loc (m : Z) (l : location) : shr_m (shr_record_of_loc m l) = m.
Proof. destruct l as [|[]]; reflexivity. Qed.

Lemma shr_fexp_spec (m e : Z) (l : location) :
  0 <= m ->
  let k := Z.max 0 (fexp prec emax (Zdigits2 m + e) - e) in
  shr_m (fst (shr_fexp prec emax m e l)) = m / 2 ^ k /\
  snd (shr_fexp prec emax m e l) = e + k /\
  (k = 0 -> fst (shr_fexp prec emax m e l) = shr_record_of_loc m l).
Proof.
  intros H k. unfold shr_fexp.
  destruct (shr_spec (shr_record_of_loc m l) e
              (fexp prec emax (Zdigits2 m + e) - e)) as (A & B & C).
  { now rewrite shr_m_of_loc. }
  rewrite shr_m_of_loc in A. fold k in A, B.
  split; [exact A|]. split; [exact B|]. intros K. apply C. lia.
Qed.

Lemma round_nearest_even_cases (m : Z) (l : location) :
  round_nearest_even m l = m \/ round_nearest_even m l = m + 1.
Proof.
  destruct l as [|[]]; cbn [round_nearest_even]; auto.
  destruct (Z.even m); auto.
Qed.

(** The rounding of a mantissa [mx >= 0] at exponent [ex]: the mantissa
    is shifted right by [k1] places to fit 53 bits above the least
    exponent, adjusted by at most one unit, and shifted one place more
    when the adjustment carried into bit 53. *)
Lemma binary_round_aux_spec (sx : bool) (mx ex : Z) (lx : location) :
  0 <= mx ->
  let k1 := Z.max 0 (fexp prec emax (Zdigits2 mx + ex) - ex) in
  exists M k2 : Z,
    binary_round_aux prec emax sx mx ex lx = round_result sx M (ex + k1 + k2) /\
    (k2 = 0 \/ (k2 = 1 /\ M = 2 ^ 52)) /\
    0 <= M < 2 ^ 53 /\
    M * 2 ^ k2 * 2 ^ k1 <= mx + 2 ^ k1 /\
    mx < (M * 2 ^ k2 + 1) * 2 ^ k1 /\
    (k1 = 0 -> lx = loc_Exact -> M * 2 ^ k2 = mx) /\
    -1074 <= ex + k1 /\
    (-1074 < ex + k1 -> 0 < k1 \/ 2 ^ 52 <= mx -> 2 ^ 52 <= M).
Proof.
  intros Hmx k1.
  pose proof (Zdigits2_upper mx Hmx) as U.
  pose proof (Zdigits2_nonneg mx) as D0.
  assert (K1 : 0 <= k1) by (unfold k1; lia).
  assert (P1 : 0 < 2 ^ k1) by (apply Z.pow_pos_nonneg; lia).
  assert (Emin : -1074 <= ex + k1) by (unfold k1; rewrite fexp_eq; lia).
  assert (KD : -1074 < ex + k1 -> 0 < k1 -> Zdigits2 mx = 53 + k1)
    by (unfold k1; rewrite fexp_eq; lia).
  assert (B1 : 0 <= mx / 2 ^ k1 < 2 ^ 53).
  { split; [apply Z.div_pos; lia|].
    apply Z.div_lt_upper_bound; [lia|].
    rewrite <- Z.pow_add_r by lia.
    eapply Z.lt_le_trans; [exact U|].
    apply Z.pow_le_mono_r; [lia|]. unfold k1. rewrite fexp_eq. lia. }
  unfold binary_round_aux.
  destruct (shr_fexp_spec mx ex lx Hmx) as (Hm & He & Hx). fold k1 in Hm, He, Hx.
  destruct (shr_fexp prec emax mx ex lx) as [mrs' e'].
  cbn [fst snd] in Hm, He, Hx.
  set (M1 := round_nearest_even (shr_m mrs') (loc_of_shr_record mrs')).
  assert (C1 : M1 = mx / 2 ^ k1 \/ M1 = mx / 2 ^ k1 + 1).
  { unfold M1. rewrite <- Hm. apply round_nearest_even_cases. }
  assert (F1 : M1 * 2 ^ k1 <= mx + 2 ^ k1 /\ mx < (M1 + 1) * 2 ^ k1).
  { pose proof (Z.div_mod mx (2 ^ k1) ltac:(lia)) as D.
    pose proof (Z.mod_pos_bound mx (2 ^ k1) P1) as B.
    destruct C1 as [-> | ->]; nia. }
  assert (X1 : k1 = 0 -> lx = loc_Exact -> M1 = mx).
  { intros K L. unfold M1. rewrite (Hx K), L. reflexivity. }
  assert (M0 : 0 <= M1) by lia.
  assert (N1 : -1074 < ex + k1 -> 0 < k1 \/ 2 ^ 52 <= mx -> 2 ^ 52 <= M1).
  { intros G [K|K].
    - pose proof (KD G K) as D.
      assert (0 < mx).
      { destruct (Z.eq_dec mx 0) as [Z|Z]; [|lia].
        rewrite Z in D. change (Zdigits2 0) with 0 in D. lia. }
      pose proof (Zdigits2_lower mx ltac:(lia)) as L. rewrite D in L.
      replace (53 + k1 - 1) with (52 + k1) in L by lia.
      rewrite Z.pow_add_r in L by lia.
      assert (2 ^ 52 <= mx / 2 ^ k1)
        by (apply Z.div_le_lower_bound; lia).
      lia.
    - assert (k1 = 0 \/ 0 < k1) as [Z0|Z0] by lia.
      + rewrite Z0 in C1. change (2 ^ 0) with 1 in C1.
        rewrite Z.div_1_r in C1. lia.
      + pose proof (KD G Z0) as D.
        pose proof (Zdigits2_lower mx ltac:(lia)) as L. rewrite D in L.
        replace (53 + k1 - 1) with (52 + k1) in L by lia.
        rewrite Z.pow_add_r in L by lia.
        assert (2 ^ 52 <= mx / 2 ^ k1)
          by (apply Z.div_le_lower_bound; lia).
        lia. }
  destruct (shr_fexp_spec M1 e' loc_Exact M0) as (Hm2 & He2 & _).
  destruct (shr_fexp prec emax M1 e' loc_Exact) as [mrs'' e''].
  cbn [fst snd] in Hm2, He2. subst e' e''.
  set (k2 := Z.max 0 (fexp prec emax (Zdigits2 M1 + (ex + k1)) - (ex + k1)))
    in *.
  rewrite Hm2. change (emax - prec) with 971.
  destruct (Z.eq_dec M1 (2 ^ 53)) as [T|T].
  - assert (K2 : k2 = 1).
    { unfold k2. rewrite T. change (Zdigits2 (2 ^ 53)) with 54.
      rewrite fexp_eq. lia. }
    exists (2 ^ 52), 1. rewrite K2, T.
    change (2 ^ 53 / 2 ^ 1) with (2 ^ 52).
    split; [reflexivity|].
    split; [right; split; reflexivity|]. split; [split; [lia|reflexivity]|].
    change (2 ^ 52 * 2 ^ 1) with (2 ^ 53). rewrite <- T.
    repeat split; auto; try apply F1. intros; lia.
  - assert (L : M1 < 2 ^ 53) by lia.
    pose proof (Zdigits2_le M1 53 M0 ltac:(lia) L) as D.
    assert (K2 : k2 = 0) by (unfold k2; rewrite fexp_eq; lia).
    exists M1, 0. rewrite K2.
    change (2 ^ 0) with 1. rewrite Z.div_1_r, Z.mul_1_r.
    split; [reflexivity|]. split; [left; reflexivity|].
    split; [lia|]. repeat split; auto; apply F1.
Qed.

Lemma valid_finite (s : bool) (m : positive) (e : Z) :
  valid_binary (S754_finite s m e) = true ->
  -1074 <= e <= 971 /\ Z.pos m < 2 ^ 53 /\
  (-1074 < e -> 2 ^ 52 <= Z.pos m) /\
  fexp prec emax (Z.pos (digits2_pos m) + e) = e.
Proof.
  unfold valid_binary, SpecFloat.valid_binary, bounded, canonical_mantissa.
  intros H. apply andb_prop in H. destruct H as [C B].
  apply Z.eqb_eq in C. apply Z.leb_le in B.
  change (emax - prec) with 971 in B.
  pose proof (digits2_pos_bounds m) as [L U].
  pose proof C as C'. rewrite fexp_eq in C'.
  split; [lia|]. split; [|split; [|exact C]].
  - eapply Z.lt_le_trans; [exact U|]. apply Z.pow_le_mono_r; lia.
  - intros N. replace (Z.pos (digits2_pos m)) with 53 in L by lia. exact L.
Qed.

Lemma is_finite_sf (a : float) :
  PrimFloat.is_finite a = sf_finite (Prim2SF a).
Proof.
  unfold PrimFloat.is_finite, PrimFloat.is_nan, PrimFloat.is_infinity.
  rewrite !FloatAxioms.eqb_spec, FloatAxioms.abs_spec.
  destruct (Prim2SF a) as [s|s| |s m e]; try reflexivity.
  - destruct s; reflexivity.
  - cbn [SFabs]. unfold SFeqb, SFcompare. rewrite Z.compare_refl.
    rewrite Pos.compare_cont_refl. destruct s; reflexivity.
Qed.

Lemma Zdigits2_mono (a b : Z) : 0 <= a <= b -> Zdigits2 a <= Zdigits2 b.
Proof.
  intros H. apply Zdigits2_le; [lia|apply Zdigits2_nonneg|].
  pose proof (Zdigits2_upper b ltac:(lia)). lia.
Qed.

Lemma Zdigits2_mul_pow2 (m k : Z) :
  0 < m -> 0 <= k -> Zdigits2 (m * 2 ^ k) = Zdigits2 m + k.
Proof.
  intros Hm Hk.
  pose proof (Zdigits2_upper m ltac:(lia)) as U.
  pose proof (Zdigits2_lower m Hm) as L.
  pose proof (Zdigits2_nonneg m) as N.
  assert (P : 0 < 2 ^ k) by (apply Z.pow_pos_nonneg; lia).
  assert (D : 0 < Zdigits2 m) by (apply Zdigits2_gt; change (2 ^ 0) with 1; lia).
  apply Z.le_antisymm.
  - apply Zdigits2_le; [nia | lia |]. rewrite Z.pow_add_r by lia. nia.
  - assert (Zdigits2 m - 1 + k < Zdigits2 (m * 2 ^ k)); [|lia].
    apply Zdigits2_gt; [lia|]. rewrite Z.pow_add_r by lia. nia.
Qed.

Lemma Pos_iter_xO (m d : positive) :
  Z.pos (Pos.iter xO m d) = Z.pos m * 2 ^ Z.pos d.
Proof.
  induction d as [|d IH] using Pos.peano_ind.
  - cbn [Pos.iter]. change (2 ^ 1) with 2. lia.
  - rewrite Pos.iter_succ, Pos2Z.inj_xO, IH, Pos2Z.inj_succ.
    rewrite Z.pow_succ_r by lia. ring.
Qed.

Lemma shl_align_spec (mx : positive) (ex ex' : Z) :
  Z.pos (fst (shl_align mx ex ex')) = Z.pos mx * 2 ^ Z.max 0 (ex - ex') /\
  snd (shl_align mx ex ex') = Z.min ex ex'.
Proof.
  unfold shl_align. destruct (ex' - ex) as [|d|d] eqn:E; cbn [fst snd].
  - replace (Z.max 0 (ex - ex')) with 0 by lia. change (2 ^ 0) with 1. lia.
  - replace (Z.max 0 (ex - ex')) with 0 by lia. change (2 ^ 0) with 1. lia.
  - rewrite Pos_iter_xO. replace (Z.max 0 (ex - ex')) with (Z.pos d) by lia.
    lia.
Qed.

Lemma pow2_pos (k : Z) : 0 <= k -> 0 < 2 ^ k.
Proof. intros H. apply Z.pow_pos_nonneg; lia. Qed.

Lemma mul_lt_cancel (a b p : Z) : 0 < p -> a * p < b * p -> a < b.
Proof. intros P H. nia. Qed.

Lemma mul_le_cancel (a b p : Z) : 0 < p -> a * p <= b * p -> a <= b.
Proof. intros P H. nia. Qed.

(** Rounding a positive mantissa: [binary_round]. *)
Lemma binary_round_spec (sx : bool) (mx : positive) (ex : Z) :
  -1074 <= ex ->
  let E := fexp prec emax (Z.pos (digits2_pos mx) + ex) in
  let k0 := Z.max 0 (ex - E) in
  let k1 := Z.max 0 (E - ex) in
  exists (M : positive) (k2 : Z),
    binary_round prec emax sx mx ex = round_result sx (Z.pos M) (E + k2) /\
    (k2 = 0 \/ (k2 = 1 /\ Z.pos M = 2 ^ 52)) /\
    Z.pos M < 2 ^ 53 /\
    Z.pos M * 2 ^ k2 * 2 ^ k1 <= Z.pos mx * 2 ^ k0 + 2 ^ k1 /\
    Z.pos mx * 2 ^ k0 < (Z.pos M * 2 ^ k2 + 1) * 2 ^ k1 /\
    (k1 = 0 -> Z.pos M * 2 ^ k2 = Z.pos mx * 2 ^ k0) /\
    (0 < k1 -> 2 ^ 52 <= Z.pos M).
Proof.
  intros He E k0 k1. unfold binary_round. fold E.
  destruct (shl_align_spec mx ex E) as [Am Ae].
  destruct (shl_align mx ex E) as [mz ez]. cbn [fst snd] in Am, Ae.
  fold k0 in Am.
  assert (K0 : 0 <= k0) by (unfold k0; lia).
  assert (K1 : 0 <= k1) by (unfold k1; lia).
  assert (Dg : Zdigits2 (Z.pos mz) + ez = Z.pos (digits2_pos mx) + ex).
  { rewrite Am, Zdigits2_mul_pow2 by lia. cbn [Zdigits2]. unfold k0. lia. }
  destruct (binary_round_aux_spec sx (Z.pos mz) ez loc_Exact
              (Pos2Z.is_nonneg mz))
    as (M & k2 & R & C2 & BM & LM & UM & XM & Emin & _).
  rewrite Dg in *. fold E in R, LM, UM, XM, Emin.
  assert (EE : E = Z.max (Z.pos (digits2_pos mx) + ex - 53) (-1074))
    by (unfold E; apply fexp_eq).
  assert (K1' : Z.max 0 (E - ez) = k1) by (unfold k1; lia).
  rewrite K1' in *.
  assert (Ez : ez + k1 = E) by (unfold k1; lia).
  rewrite Ez in R.
  pose proof (digits2_pos_bounds mx) as [DL _].
  pose proof (pow2_pos k0 K0) as P0. pose proof (pow2_pos k1 K1) as P1.
  set (d := Z.pos (digits2_pos mx)) in *.
  assert (D1 : 1 <= d) by (unfold d; lia).
  assert (Q : 2 ^ (d - 1 - k1 + k0) * 2 ^ k1 <= Z.pos mz).
  { rewrite <- Z.pow_add_r by (unfold k0, k1; lia).
    replace (d - 1 - k1 + k0 + k1) with (d - 1 + k0) by lia.
    rewrite Z.pow_add_r by lia. rewrite Am.
    apply Z.mul_le_mono_nonneg_r; lia. }
  assert (Q0 : 0 <= d - 1 - k1 + k0) by (unfold k0, k1; lia).
  assert (K2 : 0 <= k2) by (destruct C2 as [->|[-> _]]; lia).
  pose proof (pow2_pos k2 K2) as P2.
  assert (W1 : 2 ^ (d - 1 - k1 + k0) < M * 2 ^ k2 + 1).
  { apply (mul_lt_cancel _ _ (2 ^ k1) P1). lia. }
  assert (W0 : 1 <= 2 ^ (d - 1 - k1 + k0)) by (pose proof (pow2_pos _ Q0); lia).
  destruct M as [|M|M]; [lia| |lia].
  exists M, k2. rewrite <- Am.
  split; [exact R|]. split; [exact C2|]. split; [lia|].
  split; [exact LM|]. split; [exact UM|].
  split; [intros K; apply XM; [lia|reflexivity]|].
  intros K.
  destruct C2 as [->|[-> ->]]; [|lia].
  change (2 ^ 0) with 1 in W1. rewrite Z.mul_1_r in W1.
  assert (2 ^ 52 <= 2 ^ (d - 1 - k1 + k0)); [|lia].
  apply Z.pow_le_mono_r; [lia|]. unfold k0, k1 in *. lia.
Qed.

(** The sum of two positive finite numbers: the result is positive, its
    exponent is at least the exponent of each operand, and it differs from
    the exact sum by at most [2^-52] of itself. *)
Lemma SFadd_pos (ma mb : positive) (ea eb : Z) :
  valid_binary (S754_finite false ma ea) = true ->
  valid_binary (S754_finite false mb eb) = true ->
  exists (M : positive) (e : Z),
    SF64add (S754_finite false ma ea) (S754_finite false mb eb) =
    round_result false (Z.pos M) e /\
    ea <= e /\ eb <= e /\ -1074 <= e /\
    let X := Z.pos ma * 2 ^ (ea + 1074) + Z.pos mb * 2 ^ (eb + 1074) in
    let R := Z.pos M * 2 ^ (e + 1074) in
    2 ^ 52 * (R - X) <= R /\ 2 ^ 52 * (X - R) <= R.
Proof.
  intros Va Vb.
  destruct (valid_finite _ _ _ Va) as (Ra & _ & _ & Ca).
  destruct (valid_finite _ _ _ Vb) as (Rb & _ & _ & Cb).
  rewrite fexp_eq in Ca, Cb.
  unfold SF64add, SFadd, cond_Zopp. cbv beta iota.
  set (ez := Z.min ea eb).
  destruct (shl_align_spec ma ea ez) as [A1 _].
  destruct (shl_align_spec mb eb ez) as [B1 _].
  set (ma' := fst (shl_align ma ea ez)) in *.
  set (mb' := fst (shl_align mb eb ez)) in *.
  change (Z.pos ma' + Z.pos mb') with (Z.pos (ma' + mb')).
  cbn [binary_normalize].
  replace (Z.max 0 (ea - ez)) with (ea - ez) in A1 by lia.
  replace (Z.max 0 (eb - ez)) with (eb - ez) in B1 by lia.
  set (S := (ma' + mb')%positive).
  assert (SS : Z.pos S = Z.pos ma' + Z.pos mb') by (unfold S; lia).
  clearbody S ma' mb'.
  assert (PA : 0 < 2 ^ (ea - ez)) by (apply pow2_pos; lia).
  assert (PB : 0 < 2 ^ (eb - ez)) by (apply pow2_pos; lia).
  assert (DA : Z.pos (digits2_pos ma) + ea <= Z.pos (digits2_pos S) + ez).
  { assert (H : Zdigits2 (Z.pos ma') <= Zdigits2 (Z.pos S))
      by (apply Zdigits2_mono; lia).
    rewrite A1, Zdigits2_mul_pow2 in H by lia. cbn [Zdigits2] in H. lia. }
  assert (DB : Z.pos (digits2_pos mb) + eb <= Z.pos (digits2_pos S) + ez).
  { assert (H : Zdigits2 (Z.pos mb') <= Zdigits2 (Z.pos S))
      by (apply Zdigits2_mono; lia).
    rewrite B1, Zdigits2_mul_pow2 in H by lia. cbn [Zdigits2] in H. lia. }
  set (u := 2 ^ (ez + 1074)).
  assert (U : 0 < u) by (apply pow2_pos; lia).
  assert (XA : Z.pos ma * 2 ^ (ea + 1074) + Z.pos mb * 2 ^ (eb + 1074)
               = Z.pos S * u).
  { replace (ea + 1074) with (ea - ez + (ez + 1074)) by lia.
    replace (eb + 1074) with (eb - ez + (ez + 1074)) by lia.
    rewrite (Z.pow_add_r 2 (ea - ez)), (Z.pow_add_r 2 (eb - ez)) by lia.
    fold u. rewrite SS, A1, B1. ring. }
  clear A1 B1 SS PA PB.
  destruct (binary_round_spec false S ez ltac:(lia))
    as (M & k2 & R & C2 & BM & LM & UM & XM & NM).
  set (E := fexp prec emax (Z.pos (digits2_pos S) + ez)) in *.
  assert (EE : E = Z.max (Z.pos (digits2_pos S) + ez - 53) (-1074))
    by (unfold E; apply fexp_eq).
  clearbody E.
  exists M, (E + k2). split; [exact R|]. clear R.
  assert (K2 : 0 <= k2) by (destruct C2 as [->|[-> _]]; lia).
  assert (E1 : ea <= E + k2 /\ eb <= E + k2 /\ -1074 <= E + k2 /\ -1074 <= E)
    by (clear LM UM XM NM; lia).
  destruct E1 as (E1 & E2 & E3 & E4).
  split; [exact E1|]. split; [exact E2|]. split; [exact E3|].
  cbv zeta. rewrite XA. clear XA Ca Cb DA DB Va Vb.
  set (k0 := Z.max 0 (ez - E)) in *. set (k1 := Z.max 0 (E - ez)) in *.
  pose proof (pow2_pos k2 K2) as P2.
  destruct (Z.eq_dec k1 0) as [Z1|Z1].
  - specialize (XM Z1). clear LM UM NM.
    assert (RX : Z.pos M * 2 ^ (E + k2 + 1074) = Z.pos S * u).
    { replace (E + k2 + 1074) with (k2 + (E + 1074)) by lia.
      rewrite (Z.pow_add_r 2 k2) by lia. rewrite Z.mul_assoc, XM.
      unfold u.
      replace (ez + 1074) with (k0 + (E + 1074)) by (unfold k0, k1 in *; lia).
      rewrite (Z.pow_add_r 2 k0) by (unfold k0; lia). ring. }
    rewrite RX. lia.
  - assert (K1 : 0 < k1) by (clear LM UM XM NM; unfold k1 in *; lia).
    specialize (NM K1).
    assert (K0 : k0 = 0) by (clear LM UM XM; unfold k0, k1 in *; lia).
    rewrite K0 in LM, UM. change (2 ^ 0) with 1 in LM, UM.
    rewrite Z.mul_1_r in LM, UM.
    assert (RX : Z.pos M * 2 ^ (E + k2 + 1074)
                 = Z.pos M * 2 ^ k2 * 2 ^ k1 * u).
    { replace (E + k2 + 1074) with (k2 + (k1 + (ez + 1074)))
        by (unfold k1 in *; lia).
      rewrite (Z.pow_add_r 2 k2), (Z.pow_add_r 2 k1) by lia. fold u. ring. }
    rewrite RX. clear RX XM.
    pose proof (pow2_pos k1 ltac:(lia)) as P.
    set (p := 2 ^ k1) in *. set (q := 2 ^ k2) in *.
    clearbody p q u k1 k0.
    assert (WW : 2 ^ 52 * 1 <= Z.pos M * q)
      by (apply Z.mul_le_mono_nonneg; lia).
    set (W := Z.pos M * q) in *. clearbody W.
    assert (PU : 0 < p * u) by (apply Z.mul_pos_pos; lia).
    assert (WPU : 2 ^ 52 * (p * u) <= W * (p * u))
      by (apply Z.mul_le_mono_nonneg_r; lia).
    assert (L1 : W * p - Z.pos S <= p) by lia.
    assert (L2 : Z.pos S - W * p <= p) by lia.
    clear LM UM.
    split.
    + assert ((W * p - Z.pos S) * u <= p * u)
        by (apply Z.mul_le_mono_nonneg_r; lia).
      replace (W * p * u - Z.pos S * u) with ((W * p - Z.pos S) * u) by ring.
      replace (W * p * u) with (W * (p * u)) by ring. lia.
    + assert ((Z.pos S - W * p) * u <= p * u)
        by (apply Z.mul_le_mono_nonneg_r; lia).
      replace (Z.pos S * u - W * p * u) with ((Z.pos S - W * p) * u) by ring.
      replace (W * p * u) with (W * (p * u)) by ring. lia.
Qed.

Lemma sval_nonneg (x : spec_float) : 0 <= sval x.
Proof.
  destruct x as [| | |s m e]; cbn [sval]; try lia.
Qed.

Lemma add_nonneg_spec (a b : float) :
  fnonneg a = true -> fnonneg b = true ->
  fnonneg (a + b) = true /\
  flvl a <= flvl (a + b) /\ flvl b <= flvl (a + b) /\
  (sf_finite (Prim2SF (a + b)) = true ->
   sf_finite (Prim2SF a) = true /\ sf_finite (Prim2SF b) = true /\
   2 ^ 52 * (fval (a + b) - (fval a + fval b)) <= fval (a + b) /\
   2 ^ 52 * (fval a + fval b - fval (a + b)) <= fval (a + b)).
Proof.
  unfold fnonneg, flvl, fval. rewrite FloatAxioms.add_spec.
  pose proof (Prim2SF_valid a) as Va. pose proof (Prim2SF_valid b) as Vb.
  destruct (Prim2SF a) as [sa|sa| |sa ma ea];
    destruct (Prim2SF b) as [sb|sb| |sb mb eb];
    cbn [nonneg]; intros Ha Hb; try discriminate;
    try (destruct sa; [discriminate|]); try (destruct sb; [discriminate|]);
    try (destruct (valid_finite _ _ _ Va) as (Ra & _));
    try (destruct (valid_finite _ _ _ Vb) as (Rb & _)).
  9: { destruct (SFadd_pos ma mb ea eb Va Vb)
         as (M & e & R & La & Lb & Le & V1 & V2).
       rewrite R. cbn [round_result].
       destruct (e <=? 971) eqn:B; cbn [nonneg lvl sf_finite sval negb].
       + apply Z.leb_le in B. repeat split; auto.
       + repeat split; lia. }
  all: try (pose proof (sval_nonneg (S754_finite false ma ea)) as HX;
            cbn [sval] in HX);
    try (pose proof (sval_nonneg (S754_finite false mb eb)) as HY;
         cbn [sval] in HY);
    unfold SF64add, SFadd; try destruct sa; try destruct sb;
    cbn [nonneg lvl sf_finite sval negb]; repeat split; lia.
Qed.

Lemma abs_facts (a : float) :
  sf_finite (Prim2SF a) = true ->
  sf_finite (Prim2SF (PrimFloat.abs a)) = true /\
  fnonneg (PrimFloat.abs a) = true /\
  flvl (PrimFloat.abs a) = flvl a /\ fval (PrimFloat.abs a) = fval a.
Proof.
  unfold fnonneg, flvl, fval. rewrite FloatAxioms.abs_spec.
  destruct (Prim2SF a) as [s|s| |s m e]; cbn; intros H;
    try discriminate; auto.
Qed.

Lemma maxlvl_lower (l : vec) : -1075 <= maxlvl l.
Proof. induction l as [|a l IH]; cbn [maxlvl fold_right]; [lia|]. fold (maxlvl l). lia. Qed.

Lemma maxlvl_cons (a : float) (l : vec) :
  maxlvl (a :: l) = Z.max (flvl a) (maxlvl l).
Proof. reflexivity. Qed.

Lemma maxlvl_app (l1 l2 : vec) :
  maxlvl (l1 ++ l2) = Z.max (maxlvl l1) (maxlvl l2).
Proof.
  induction l1 as [|a l1 IH]; cbn [app].
  - pose proof (maxlvl_lower l2). cbn [maxlvl fold_right]. fold (maxlvl l2). lia.
  - rewrite !maxlvl_cons, IH. lia.
Qed.

Lemma maxlvl_In (a : float) (l : vec) : In a l -> flvl a <= maxlvl l.
Proof.
  induction l as [|b l IH]; [intros []|].
  rewrite maxlvl_cons. intros [->|H]; [lia|]. specialize (IH H). lia.
Qed.

Lemma flvl_lower (a : float) : -1075 <= flvl a.
Proof.
  unfold flvl. destruct (Prim2SF a) as [| | |s m e] eqn:E; cbn; try lia.
  pose proof (Prim2SF_valid a) as V. rewrite E in V.
  destruct (valid_finite _ _ _ V). lia.
Qed.

Lemma sum_seq_lvl (l : vec) : forall acc : float,
  fnonneg acc = true -> all_nonneg l ->
  fnonneg (sum_seq acc l) = true /\
  Z.max (flvl acc) (maxlvl l) <= flvl (sum_seq acc l).
Proof.
  unfold sum_seq.
  induction l as [|a l IH]; intros acc Ha Hl; cbn [fold_left].
  - split; [assumption|]. cbn [maxlvl fold_right].
    pose proof (flvl_lower acc). lia.
  - inversion Hl as [|? ? Na Nl]; subst.
    destruct (add_nonneg_spec acc a Ha Na) as (N & L1 & L2 & _).
    destruct (IH (acc + a)%float N Nl) as [N' L'].
    split; [exact N'|]. rewrite maxlvl_cons. lia.
Qed.

Lemma map2_add_lvl (r : vec) : forall l : vec,
  length r = length l -> all_nonneg r -> all_nonneg l ->
  all_nonneg (map2 PrimFloat.add r l) /\
  Z.max (maxlvl r) (maxlvl l) <= maxlvl (map2 PrimFloat.add r l).
Proof.
  induction r as [|a r IH]; intros [|b l] Hlen Hr Hl; try discriminate.
  - split; [constructor|]. cbn. lia.
  - inversion Hr as [|? ? Na Nr]; inversion Hl as [|? ? Nb Nl]; subst.
    injection Hlen as Hlen.
    destruct (IH l Hlen Nr Nl) as [N L].
    destruct (add_nonneg_spec a b Na Nb) as (N1 & L1 & L2 & _).
    cbn [map2]. split; [constructor; assumption|].
    rewrite !maxlvl_cons. lia.
Qed.

Lemma all_nonneg_firstn (n : nat) (l : vec) :
  all_nonneg l -> all_nonneg (firstn n l).
Proof.
  intros H. unfold all_nonneg in *. rewrite <- (firstn_skipn n l) in H.
  apply Forall_app in H. apply H.
Qed.

Lemma all_nonneg_skipn (n : nat) (l : vec) :
  all_nonneg l -> all_nonneg (skipn n l).
Proof.
  intros H. unfold all_nonneg in *. rewrite <- (firstn_skipn n l) in H.
  apply Forall_app in H. apply H.
Qed.

Lemma maxlvl_split (n : nat) (l : vec) :
  maxlvl l = Z.max (maxlvl (firstn n l)) (maxlvl (skipn n l)).
Proof. rewrite <- maxlvl_app, firstn_skipn. reflexivity. Qed.

Lemma acc8_lvl (k : nat) : forall r l : vec,
  length r = 8%nat -> (8 * k <= length l)%nat ->
  all_nonneg r -> all_nonneg l ->
  length (fst (acc8 r l k)) = 8%nat /\
  all_nonneg (fst (acc8 r l k)) /\ all_nonneg (snd (acc8 r l k)) /\
  Z.max (maxlvl r) (maxlvl l)
  <= Z.max (maxlvl (fst (acc8 r l k))) (maxlvl (snd (acc8 r l k))).
Proof.
  induction k as [|k IH]; intros r l Lr Ll Nr Nl; cbn [acc8 fst snd].
  - repeat split; auto. lia.
  - assert (L8 : length (firstn 8 l) = 8%nat) by (rewrite length_firstn; lia).
    destruct (map2_add_lvl r (firstn 8 l)) as [N1 M1];
      [lia | assumption | now apply all_nonneg_firstn |].
    destruct (IH (map2 PrimFloat.add r (firstn 8 l)) (skipn 8 l))
      as (A & B & C & D).
    + rewrite map2_length, Lr, L8. reflexivity.
    + rewrite length_skipn. lia.
    + assumption.
    + now apply all_nonneg_skipn.
    + repeat split; auto. rewrite (maxlvl_split 8 l). lia.
Qed.

Lemma sum_block_lvl (l : vec) :
  (8 <= length l)%nat -> all_nonneg l ->
  fnonneg (sum_block l) = true /\ maxlvl l <= flvl (sum_block l).
Proof.
  intros L N. unfold sum_block.
  destruct (acc8_lvl (length l / 8 - 1) (firstn 8 l) (skipn 8 l))
    as (A & B & C & D).
  - rewrite length_firstn. lia.
  - rewrite length_skipn.
    pose proof (Nat.Div0.mul_div_le (length l) 8). lia.
  - now apply all_nonneg_firstn.
  - now apply all_nonneg_skipn.
  - rewrite <- maxlvl_split in D.
    destruct (acc8 (firstn 8 l) (skipn 8 l) (length l / 8 - 1)) as [r rest].
    cbn [fst snd] in A, B, C, D.
    destruct r as [|r0 [|r1 [|r2 [|r3 [|r4 [|r5 [|r6 [|r7 [|]]]]]]]]];
      try discriminate.
    cbn [nth].
    repeat match goal with
           | H : all_nonneg (_ :: _) |- _ =>
               inversion H; subst; clear H
           | H : Forall _ (_ :: _) |- _ =>
               inversion H; subst; clear H
           end.
    rewrite !maxlvl_cons in D. cbn [maxlvl fold_right] in D.
    destruct (add_nonneg_spec r0 r1) as (N01 & ? & ? & _); try assumption.
    destruct (add_nonneg_spec r2 r3) as (N23 & ? & ? & _); try assumption.
    destruct (add_nonneg_spec r4 r5) as (N45 & ? & ? & _); try assumption.
    destruct (add_nonneg_spec r6 r7) as (N67 & ? & ? & _); try assumption.
    destruct (add_nonneg_spec _ _ N01 N23) as (Na & ? & ? & _).
    destruct (add_nonneg_spec _ _ N45 N67) as (Nb & ? & ? & _).
    destruct (add_nonneg_spec _ _ Na Nb) as (Nc & ? & ? & _).
    destruct (sum_seq_lvl rest _ Nc C) as [Nd Ld].
    split; [exact Nd|]. fold (maxlvl rest) in D.
    pose proof (flvl_lower r7). lia.
Qed.

Lemma neg_zero_nonneg : fnonneg neg_zero = true /\ flvl neg_zero = -1075.
Proof. split; reflexivity. Qed.

Lemma pairwise_sum_lvl (fuel : nat) : forall l : vec,
  all_nonneg l ->
  fnonneg (pairwise_sum fuel l) = true /\
  maxlvl l <= flvl (pairwise_sum fuel l).
Proof.
  assert (S : forall l, all_nonneg l ->
              fnonneg (sum_seq neg_zero l) = true /\
              maxlvl l <= flvl (sum_seq neg_zero l)).
  { intros l N.
    destruct (sum_seq_lvl l neg_zero (proj1 neg_zero_nonneg) N) as [A B].
    split; [exact A | lia]. }
  induction fuel as [|f IH]; intros l N; cbn [pairwise_sum].
  - destruct (length l <? 8)%nat eqn:E8; [now apply S|].
    apply Nat.ltb_ge in E8.
    destruct (length l <=? 128)%nat; [now apply sum_block_lvl | now apply S].
  - destruct (length l <? 8)%nat eqn:E8; [now apply S|].
    apply Nat.ltb_ge in E8.
    destruct (length l <=? 128)%nat; [now apply sum_block_lvl|].
    set (n2 := (length l / 2 - (length l / 2) mod 8)%nat).
    destruct (IH (firstn n2 l) (all_nonneg_firstn _ _ N)) as [A1 B1].
    destruct (IH (skipn n2 l) (all_nonneg_skipn _ _ N)) as [A2 B2].
    destruct (add_nonneg_spec _ _ A1 A2) as (A & L1 & L2 & _).
    split; [exact A|]. rewrite (maxlvl_split n2 l). lia.
Qed.

(** [np.sum] of non-negative values is non-negative, and its exponent is
    at least the exponent of every summand. *)
Lemma np_sum_lvl (l : vec) :
  all_nonneg l ->
  fnonneg (np_sum l) = true /\ maxlvl l <= flvl (np_sum l).
Proof.
  intros N. unfold np_sum.
  destruct (pairwise_sum_lvl (length l) l N) as [A B].
  assert (Z : fnonneg 0%float = true) by reflexivity.
  destruct (add_nonneg_spec _ _ Z A) as (A' & _ & L & _).
  split; [exact A' | lia].
Qed.

(** The quotient of two finite numbers. *)
Lemma SFdiv_core_spec (ma mb : positive) (ea eb : Z) :
  let G := Z.pos (digits2_pos ma) + ea - (Z.pos (digits2_pos mb) + eb) in
  let e' := Z.min (fexp prec emax G) (ea - eb) in
  let s := ea - eb - e' in
  exists (q : Z) (l : location),
    SFdiv_core_binary prec emax (Z.pos ma) ea (Z.pos mb) eb = (q, e', l) /\
    0 <= q /\
    q * Z.pos mb <= Z.pos ma * 2 ^ s /\
    Z.pos ma * 2 ^ s < (q + 1) * Z.pos mb.
Proof.
  intros G e' s. unfold SFdiv_core_binary. cbn [Zdigits2].
  fold G. fold e'. fold s.
  assert (S0 : 0 <= s) by (unfold s, e'; lia).
  set (m' := match s with
             | 0 => Z.pos ma
             | Z.pos _ => Z.shiftl (Z.pos ma) s
             | Z.neg _ => 0
             end).
  assert (M' : m' = Z.pos ma * 2 ^ s).
  { unfold m'. destruct s as [|p|p]; [change (2 ^ 0) with 1; lia| |lia].
    apply Z.shiftl_mul_pow2. lia. }
  clearbody m'.
  pose proof (Z_div_mod m' (Z.pos mb) ltac:(lia)) as D.
  destruct (Z.div_eucl m' (Z.pos mb)) as [q r].
  exists q, (new_location (Z.pos mb) r). split; [reflexivity|].
  rewrite <- M'. destruct D as [D1 D2].
  assert (0 <= m') by (rewrite M'; pose proof (pow2_pos s S0); lia).
  nia.
Qed.

Lemma SFdiv_pos_spec (sa sb : bool) (ma mb : positive) (ea eb : Z) :
  -1074 <= ea -> -1074 <= eb -> Z.pos ma < 2 ^ 53 ->
  exists M e k2 : Z,
    SF64div (S754_finite sa ma ea) (S754_finite sb mb eb) =
    round_result (xorb sa sb) M e /\
    0 <= M /\ 0 <= k2 /\ -1074 <= e - k2 /\
    (ea <= eb -> e <= 1) /\
    (e - k2 = -1074 \/ 2 ^ 52 <= M) /\
    let A := Z.pos ma * 2 ^ (ea + 1074) in
    let N := Z.pos mb * 2 ^ (eb + 1074) in
    let Q := M * 2 ^ (e + 1074) in
    let err := 2 ^ (e - k2 + 1074) in
    (Q - err) * N <= A * 2 ^ 1074 /\ A * 2 ^ 1074 <= (Q + err) * N.
Proof.
  intros Ha Hb Ma.
  destruct (SFdiv_core_spec ma mb ea eb) as (q & l & C & Q0 & QL & QU).
  unfold SF64div, SFdiv. rewrite C. clear C.
  set (G := Z.pos (digits2_pos ma) + ea - (Z.pos (digits2_pos mb) + eb)) in *.
  assert (FG : fexp prec emax G = Z.max (G - 53) (-1074)) by apply fexp_eq.
  set (e' := Z.min (fexp prec emax G) (ea - eb)) in *.
  set (s := ea - eb - e') in *.
  assert (S0 : 0 <= s) by (unfold s, e'; lia).
  pose proof (pow2_pos s S0) as PS.
  pose proof (digits2_pos_bounds ma) as [DAl DAu].
  pose proof (digits2_pos_bounds mb) as [DBl DBu].
  set (da := Z.pos (digits2_pos ma)) in *.
  set (db := Z.pos (digits2_pos mb)) in *.
  assert (Da : 1 <= da) by (unfold da; lia).
  assert (Db : 1 <= db) by (unfold db; lia).
  (* the quotient has at most 53 + s digits, and at least G - e' *)
  assert (QD : Zdigits2 q <= 53 + s).
  { apply Zdigits2_le; [lia | lia |].
    rewrite Z.pow_add_r by lia.
    assert (q * 1 <= q * Z.pos mb) by (apply Z.mul_le_mono_nonneg_l; lia).
    assert (Z.pos ma * 2 ^ s < 2 ^ 53 * 2 ^ s)
      by (apply Z.mul_lt_mono_pos_r; lia).
    lia. }
  assert (QN : 0 <= G - 1 - e' -> 2 ^ (G - 1 - e') <= q).
  { intros T.
    assert (X : 2 ^ (G - 1 - e') * 2 ^ db < (q + 1) * 2 ^ db).
    { rewrite <- Z.pow_add_r by lia.
      replace (G - 1 - e' + db) with (da - 1 + s) by (unfold G, s; lia).
      rewrite Z.pow_add_r by lia.
      assert (2 ^ (da - 1) * 2 ^ s <= Z.pos ma * 2 ^ s)
        by (apply Z.mul_le_mono_nonneg_r; lia).
      assert ((q + 1) * Z.pos mb <= (q + 1) * 2 ^ db)
        by (apply Z.mul_le_mono_nonneg_l; lia).
      lia. }
    apply mul_lt_cancel in X; [lia|]. apply pow2_pos. lia. }
  destruct (binary_round_aux_spec (xorb sa sb) q e' l Q0)
    as (M & k2 & R & C2 & BM & LM & UM & _ & Emin & NM).
  set (k1 := Z.max 0 (fexp prec emax (Zdigits2 q + e') - e')) in *.
  assert (FQ : fexp prec emax (Zdigits2 q + e')
               = Z.max (Zdigits2 q + e' - 53) (-1074)) by apply fexp_eq.
  assert (K1 : 0 <= k1) by (unfold k1; lia).
  assert (K2 : 0 <= k2) by (destruct C2 as [->|[-> _]]; lia).
  exists M, (e' + k1 + k2), k2.
  split; [exact R|]. split; [lia|]. split; [exact K2|].
  replace (e' + k1 + k2 - k2) with (e' + k1) by lia.
  split; [exact Emin|].
  split.
  { intros Le. clear LM UM NM QN QL QU.
    assert (k2 <= 1) by (destruct C2 as [->|[-> _]]; lia).
    unfold k1, s, e' in *. lia. }
  split.
  { destruct (Z.eq_dec (e' + k1) (-1074)) as [Z|Z]; [left; exact Z|right].
    apply NM; [lia|].
    destruct (Z.eq_dec k1 0) as [Z1|Z1]; [right|left; lia].
    assert (T : 52 <= G - 1 - e')
      by (clear LM UM NM QN QL QU; unfold k1, e' in *; lia).
    eapply Z.le_trans; [|apply QN; lia].
    apply Z.pow_le_mono_r; lia. }
  cbv zeta.
  assert (F0 : 0 <= eb + e' + 2148)
    by (clear LM UM NM QN QL QU; unfold e' in *; lia).
  set (F := 2 ^ (eb + e' + 2148)).
  assert (PF : 0 < F) by (apply pow2_pos; exact F0).
  pose proof (pow2_pos k1 K1) as P1. pose proof (pow2_pos k2 K2) as P2.
  assert (EA : Z.pos ma * 2 ^ (ea + 1074) * 2 ^ 1074 = Z.pos ma * 2 ^ s * F).
  { unfold F. rewrite <- !Z.mul_assoc, <- !Z.pow_add_r by lia.
    f_equal. f_equal. unfold s. lia. }
  assert (EQ : M * 2 ^ (e' + k1 + k2 + 1074) * (Z.pos mb * 2 ^ (eb + 1074))
               = M * 2 ^ k2 * 2 ^ k1 * Z.pos mb * F).
  { unfold F.
    replace (e' + k1 + k2 + 1074) with (k2 + (e' + k1 + 1074)) by lia.
    rewrite (Z.pow_add_r 2 k2) by lia.
    replace (M * (2 ^ k2 * 2 ^ (e' + k1 + 1074)) * (Z.pos mb * 2 ^ (eb + 1074)))
      with (M * 2 ^ k2 * Z.pos mb * (2 ^ (e' + k1 + 1074) * 2 ^ (eb + 1074)))
      by ring.
    rewrite <- Z.pow_add_r by lia.
    replace (e' + k1 + 1074 + (eb + 1074)) with (k1 + (eb + e' + 2148)) by lia.
    rewrite (Z.pow_add_r 2 k1) by lia. ring. }
  assert (EE : 2 ^ (e' + k1 + 1074) * (Z.pos mb * 2 ^ (eb + 1074))
               = 2 ^ k1 * Z.pos mb * F).
  { unfold F.
    replace (2 ^ (e' + k1 + 1074) * (Z.pos mb * 2 ^ (eb + 1074)))
      with (Z.pos mb * (2 ^ (e' + k1 + 1074) * 2 ^ (eb + 1074))) by ring.
    rewrite <- Z.pow_add_r by lia.
    replace (e' + k1 + 1074 + (eb + 1074)) with (k1 + (eb + e' + 2148)) by lia.
    rewrite (Z.pow_add_r 2 k1) by lia. ring. }
  rewrite !Z.mul_sub_distr_r, !Z.mul_add_distr_r, EA, EQ, EE.
  clearbody F. clear EA EQ EE NM QN FQ FG.
  set (W := M * 2 ^ k2) in *. set (p := 2 ^ k1) in *.
  set (x := Z.pos ma * 2 ^ s) in *. set (n := Z.pos mb) in *.
  assert (Hn : 0 < n) by (unfold n; lia).
  clearbody W p x n.
  assert (L1 : (W * p - p) * n <= q * n)
    by (apply Z.mul_le_mono_nonneg_r; lia).
  assert (L2 : (q + 1) * n <= (W + 1) * p * n)
    by (apply Z.mul_le_mono_nonneg_r; lia).
  split.
  - replace (W * p * n * F - p * n * F) with ((W * p - p) * n * F) by ring.
    apply Z.mul_le_mono_nonneg_r; lia.
  - replace (W * p * n * F + p * n * F) with ((W + 1) * p * n * F) by ring.
    apply Z.mul_le_mono_nonneg_r; lia.
Qed.

Lemma round_result_finite (s : bool) (M e : Z) :
  0 <= M -> e <= 971 -> sf_finite (round_result s M e) = true.
Proof.
  intros HM He. destruct M as [|m|m]; [reflexivity| |lia].
  cbn [round_result]. apply Z.leb_le in He. rewrite He. reflexivity.
Qed.

Lemma round_result_value (s : bool) (M e : Z) :
  0 <= M -> sf_finite (round_result s M e) = true ->
  sval (round_result s M e) = M * 2 ^ (e + 1074).
Proof.
  intros HM. destruct M as [|m|m]; [reflexivity| |lia].
  cbn [round_result]. destruct (e <=? 971); [reflexivity | discriminate].
Qed.

(** Division by a positive finite number [b]: the quotient is finite when
    the exponent of [a] is at most the exponent of [b], and a finite
    quotient differs from the exact one by at most [err], which is one unit
    of the least exponent or at most [2^-52] of the quotient. *)
Lemma div_pos_spec (a b : float) (sb : bool) (mb : positive) (eb : Z) :
  sf_finite (Prim2SF a) = true -> Prim2SF b = S754_finite sb mb eb ->
  (flvl a <= flvl b -> sf_finite (Prim2SF (a / b)) = true) /\
  (sf_finite (Prim2SF (a / b)) = true ->
   exists err : Z,
     0 < err /\ (err = 1 \/ 2 ^ 52 * err <= fval (a / b)) /\
     (fval (a / b) - err) * fval b <= fval a * 2 ^ 1074 /\
     fval a * 2 ^ 1074 <= (fval (a / b) + err) * fval b).
Proof.
  intros Fa Eb. unfold flvl, fval. rewrite FloatAxioms.div_spec, Eb.
  pose proof (Prim2SF_valid a) as Va. pose proof (Prim2SF_valid b) as Vb.
  rewrite Eb in Vb. destruct (valid_finite _ _ _ Vb) as (Rb & _).
  pose proof (sval_nonneg (S754_finite sb mb eb)) as Nb.
  destruct (Prim2SF a) as [sa|sa| |sa ma ea]; try discriminate.
  - unfold SF64div, SFdiv. cbn [sf_finite sval].
    split; [reflexivity|]. intros _. exists 1. repeat split; lia.
  - destruct (valid_finite _ _ _ Va) as (Ra & Ma & _).
    destruct (SFdiv_pos_spec sa sb ma mb ea eb ltac:(lia) ltac:(lia) Ma)
      as (M & e & k2 & R & M0 & K2 & Emin & Le & Nm & V1 & V2).
    rewrite R. cbn [lvl]. split.
    + intros L. apply round_result_finite; [exact M0|].
      specialize (Le L). lia.
    + intros F. rewrite (round_result_value _ _ _ M0 F).
      cbn [sval]. exists (2 ^ (e - k2 + 1074)).
      split; [apply pow2_pos; lia|]. split; [|split; assumption].
      destruct Nm as [Z|Z].
      * left. replace (e - k2 + 1074) with 0 by lia. reflexivity.
      * right. replace (e + 1074) with (k2 + (e - k2 + 1074)) by lia.
        rewrite (Z.pow_add_r 2 k2) by lia.
        pose proof (pow2_pos k2 K2). pose proof (pow2_pos (e - k2 + 1074)).
        assert (2 ^ 52 * 1 <= M * 2 ^ k2)
          by (apply Z.mul_le_mono_nonneg; lia).
        rewrite Z.mul_assoc.
        apply Z.mul_le_mono_nonneg_r; lia.
Qed.

Lemma ltb_EPS_zero (s : float) (z : bool) :
  Prim2SF s = S754_zero z -> PrimFloat.ltb s EPS = true.
Proof.
  intros E. rewrite FloatAxioms.ltb_spec, E. reflexivity.
Qed.

(** A quotient by a sum of absolute values that is not below the
    threshold is finite whenever the numerator is finite and its exponent
    is at most the exponent of the sum. *)
Lemma div_guarded_finite (a s : float) :
  sf_finite (Prim2SF a) = true -> fnonneg s = true ->
  PrimFloat.ltb s EPS = false -> flvl a <= flvl s ->
  sf_finite (Prim2SF (a / s)) = true.
Proof.
  intros Fa Ns G L.
  destruct (Prim2SF s) as [z|z| |z m e] eqn:E.
  - rewrite (ltb_EPS_zero s z E) in G. discriminate.
  - rewrite FloatAxioms.div_spec, E.
    destruct (Prim2SF a) as [| | |]; try discriminate; reflexivity.
  - unfold fnonneg in Ns. rewrite E in Ns. discriminate.
  - apply (div_pos_spec a s z m e Fa E). exact L.
Qed.

Lemma all_finite_Forall (x : vec) :
  all_finite x = true <-> Forall (fun a => sf_finite (Prim2SF a) = true) x.
Proof.
  unfold all_finite. rewrite forallb_forall, Forall_forall.
  split; intros H a Ha; specialize (H a Ha);
    [rewrite <- is_finite_sf | rewrite is_finite_sf]; exact H.
Qed.

Lemma np_abs_nonneg (x : vec) :
  all_finite x = true ->
  all_nonneg (np_abs x) /\ maxlvl (np_abs x) = maxlvl x.
Proof.
  rewrite all_finite_Forall. unfold np_abs.
  induction 1 as [|a x Fa Fx [IH1 IH2]]; cbn [map].
  - split; [constructor | reflexivity].
  - destruct (abs_facts a Fa) as (_ & N & L & _).
    split; [constructor; assumption|]. rewrite !maxlvl_cons, L, IH2.
    reflexivity.
Qed.

(** Dividing the entries of a finite vector [v] by the float64 sum of
    their absolute values gives finite entries, unless that sum is below
    the threshold. *)
Lemma guarded_quotients_finite (w v : vec) :
  all_finite v = true -> maxlvl w <= maxlvl v -> all_finite w = true ->
  let s := np_sum (np_abs v) in
  PrimFloat.ltb s EPS = false ->
  all_finite (map (fun a => a / s)%float w) = true.
Proof.
  intros Fv Lw Fw s G.
  destruct (np_abs_nonneg v Fv) as [N M].
  destruct (np_sum_lvl (np_abs v) N) as [Ns Ls]. fold s in Ns, Ls.
  rewrite M in Ls.
  apply all_finite_Forall. apply Forall_forall. intros q Hq.
  apply in_map_iff in Hq. destruct Hq as (a & <- & Ha).
  apply div_guarded_finite; try assumption.
  - apply all_finite_Forall in Fw.
    apply (proj1 (Forall_forall _ _) Fw a Ha).
  - pose proof (maxlvl_In a w Ha). lia.
Qed.

Lemma all_finite_zeros (n : nat) : all_finite (repeat 0%float n) = true.
Proof.
  unfold all_finite. induction n as [|k IH]; [reflexivity|].
  cbn [repeat forallb]. rewrite IH. reflexivity.
Qed.

Lemma f_purity_finite (x : vec) :
  all_finite x = true -> all_finite (f_purity x) = true.
Proof.
  intros F. unfold f_purity.
  destruct (PrimFloat.ltb (np_sum (np_abs x)) EPS) eqn:G.
  - apply all_finite_zeros.
  - destruct (np_abs_nonneg x F) as [N M].
    assert (Fa : all_finite (np_abs x) = true).
    { apply all_finite_Forall. apply all_finite_Forall in F.
      unfold np_abs. apply Forall_map.
      eapply Forall_impl; [|exact F]. intros a Ha. apply abs_facts. exact Ha. }
    apply (guarded_quotients_finite (np_abs x) x F); [lia | exact Fa | exact G].
Qed.

Lemma f_glory_finite (x : vec) :
  all_finite (signed_squares x) = true -> all_finite (f_glory x) = true.
Proof.
  intros F. unfold f_glory. fold (signed_squares x).
  destruct (PrimFloat.ltb (np_sum (np_abs (signed_squares x))) EPS) eqn:G.
  - apply all_finite_zeros.
  - apply (guarded_quotients_finite (signed_squares x) (signed_squares x) F);
      [lia | exact F | exact G].
Qed.

(** C5 (amended): construction from explicit seed bytes uses as seed
    material the SHA-256 digest of the seed when it is shorter than 32
    bytes and the seed itself otherwise; the initial key is the SHA-256
    digest of the seed material followed by the 4 bytes "|key"; entry i of
    the initial state is 1/12 + ((v_i / 2^32) * 2 - 1) * 1e-3, where v_i is
    the big-endian integer of bytes 4i .. 4i+3 of the SHA-512 digest of the
    seed material followed by the 5 bytes "|init"; the mask is 1 at the
    indices 0, 4 and 7 only and the counter is 0. *)
Theorem C5_construction (env : entropy) (seed : bytes) :
  let material := if (length seed <? 32)%nat then sha256 seed else seed in
  let digest := sha512 (material ++ bytes_lit "|init") in
  exists g : rng,
    init env (Some seed) = Ok g /\
    key g = sha256 (material ++ bytes_lit "|key") /\
    length (key g) = 32%nat /\
    length (state g) = 12%nat /\
    (forall i : nat, (i < 12)%nat ->
       nth i (state g) 0%float =
       (1 / 12 +
        (int_truediv (int_from_bytes (slice digest (4 * i) (4 * i + 4)))
                     (2 ^ 32) * 2 - 1) * c1e_3)%float) /\
    enabled g = [1; 0; 0; 0; 1; 0; 0; 1; 0; 0; 0; 0]%float /\
    counter g = 0.
Proof.
  intros material digest. eexists. split; [apply init_explicit|].
  cbn [key state enabled counter].
  unfold initial_key, initial_state, explicit_seed_material.
  fold material. fold digest.
  split; [reflexivity|]. split; [apply sha256_length|].
  split; [now rewrite length_map, chunk_values_length|].
  split; [|split; reflexivity].
  intros i Hi. unfold chunk_values. rewrite map_map.
  set (F := fun j : nat => _).
  rewrite (nth_indep _ 0%float (F O)) by (now rewrite length_map, length_seq).
  rewrite map_nth, seq_nth by assumption. reflexivity.
Qed.

(** C6 (amended): after a step the state is the vector before
    normalization divided entry by entry by its L1 norm when that norm
    exceeds 1e-12, and that vector unchanged otherwise.  The L1 norm of the
    divided vector is computed in float64 and need not be exactly 1. *)
Theorem C6_normalization (np_tanh : float -> float) (g g' : rng) :
  _step np_tanh g = Ok g' ->
  exists v : vec,
    pre_normalization np_tanh g = Ok v /\
    ((PrimFloat.ltb EPS (l1_norm v) = true /\
      state g' = map (fun a => a / l1_norm v)%float v) \/
     (PrimFloat.ltb EPS (l1_norm v) = false /\ state g' = v)).
Proof.
  unfold Chaos._step, pre_normalization. intros H.
  bind_inv H. bind_inv H. bind_inv H. inversion H; subst; clear H.
  cbn [state]. exists a1. split; [rewrite E; cbn [bind]; rewrite E0; exact E1|].
  unfold l1_norm. destruct (PrimFloat.ltb EPS (np_sum (np_abs a1))).
  - left. split; reflexivity.
  - right. split; reflexivity.
Qed.

(** C7 (amended): for every input vector, Purity and Glory return the
    all-zero vector (all entries +0.0, finite) when the sum of the absolute
    values (of x for Purity, of the signed squares for Glory) is below
    1e-12, and otherwise return each |x[i]|, respectively each signed
    square, divided by that sum; no division by a sum below 1e-12 is made.
    Purity produces finite values on every input with finite entries;
    Glory does on every input with finite entries whose signed squares are
    all finite, that is, when no square overflows. *)
Theorem C7_guarded_division (x : vec) :
  let s := np_sum (np_abs x) in
  let v := signed_squares x in
  let t := np_sum (np_abs v) in
  (PrimFloat.ltb s EPS = true -> f_purity x = repeat 0%float (length x)) /\
  (PrimFloat.ltb s EPS = false ->
   f_purity x = map (fun a => PrimFloat.abs a / s)%float x) /\
  (PrimFloat.ltb t EPS = true -> f_glory x = repeat 0%float (length x)) /\
  (PrimFloat.ltb t EPS = false -> f_glory x = map (fun a => a / t)%float v) /\
  all_finite (repeat 0%float (length x)) = true /\
  (all_finite x = true -> all_finite (f_purity x) = true) /\
  (all_finite x = true -> all_finite v = true ->
   all_finite (f_glory x) = true).
Proof.
  intros s v t.
  split; [|split; [|split; [|split; [|split; [|split]]]]].
  - intros H. unfold f_purity. fold s. now rewrite H.
  - intros H. unfold f_purity. fold s. rewrite H. unfold np_abs.
    now rewrite map_map.
  - intros H. unfold f_glory. fold (signed_squares x). fold v. fold t.
    now rewrite H.
  - intros H. unfold f_glory. fold (signed_squares x). fold v. fold t.
    now rewrite H.
  - apply all_finite_zeros.
  - apply f_purity_finite.
  - intros _. apply f_glory_finite.
Qed.

(** C8: in the Love transform every element of the intermediate result
    (x + mean) * 0.5 whose magnitude is below 1e-12 is replaced by negative
    zero, whatever its sign (InverseZero_operator returns -0.0 on every
    argument, and -0.0 is not +0.0: its sign bit is set); every other
    element is left as (x + mean) * 0.5. *)
Theorem C8_love_negative_zero (x : vec) :
  length (f_love x) = length x /\
  (forall i : nat, (i < length x)%nat ->
     let r := ((nth i x 0 + np_mean x) * 0.5)%float in
     nth i (f_love x) 0%float =
     if PrimFloat.ltb (PrimFloat.abs r) EPS then neg_zero else r) /\
  (forall p : float, InverseZero_operator p = neg_zero) /\
  PrimFloat.get_sign neg_zero = true /\
  double_bits neg_zero = 2 ^ 63 /\
  neg_zero <> 0%float.
Proof.
  assert (I : forall p, InverseZero_operator p = neg_zero).
  { intros p. unfold InverseZero_operator. now destruct (PrimFloat.eqb p 0). }
  split; [apply f_love_length|]. split; [|split; [exact I|]].
  - intros i Hi r. unfold f_love. rewrite map_map.
    set (F := fun a : float => _).
    rewrite (nth_indep _ 0%float (F 0%float)) by (now rewrite length_map).
    rewrite map_nth. unfold F. rewrite I. reflexivity.
  - split; [reflexivity|]. split; [reflexivity|]. discriminate.
Qed.

(** ** Witnesses and counterexamples *)

(** C2 at 64 bytes on the instance of [selftest]. *)
Lemma C2_witness :
  exists out g',
    Chaos.random_bytes tanh_rational 64 fresh_selftest = Ok (out, g') /\
    len out = 64.
Proof.
  destruct (C2_exact_length tanh_rational 64 fresh_selftest) as [_ H];
    [lia|].
  apply H.
  - split; [vm_compute; reflexivity|].
    split; [vm_compute; reflexivity | vm_compute; discriminate].
  - vm_compute. discriminate.
Defined.

(** C3 at 64 bytes: two blocks. *)
Lemma C3_witness :
  0 < 64 /\
  Chaos.random_bytes tanh_rational 64 fresh_selftest =
  ('(bs, g') <- emit_blocks tanh_rational (blocks_needed 64) fresh_selftest ;;
   Ok (firstn (Z.to_nat 64) (concat bs), g')).
Proof.
  split; [lia|].
  exact (proj1 (proj2
    (C3_block_structure tanh_rational 64 fresh_selftest ltac:(lia)))).
Defined.

(** C9 at n = -3. *)
Lemma C9_witness :
  -3 <= 0 /\
  Chaos.random_bytes tanh_rational (-3) fresh_selftest = Ok ([], fresh_selftest).
Proof.
  split; [lia|].
  exact (proj1 (C9_nonpositive_request tanh_rational (-3) fresh_selftest
                  ltac:(lia))).
Defined.

(** C10 at a = 32 and b = 5. *)
Lemma C10_witness :
  ('(o1, g1) <- Chaos.random_bytes tanh_rational 32 fresh_selftest ;;
   '(o2, g2) <- Chaos.random_bytes tanh_rational 5 g1 ;;
   Ok (o1 ++ o2, g2))
  = Chaos.random_bytes tanh_rational (32 + 5) fresh_selftest.
Proof.
  apply (C10_split_at_block_boundary tanh_rational 32 5 fresh_selftest);
    [lia | reflexivity | lia].
Defined.

(** C5 as stated fails: with the tags "key" and "init" in place of "|key"
    and "|init", neither the key nor the state of the instance constructed
    from the seed of [selftest] is obtained. *)
Lemma C5_tag_counterexample :
  exists g : rng,
    init entropy0 (Some selftest_seed) = Ok g /\
    key g <> initial_key (explicit_seed_material selftest_seed)
                         (bytes_lit "key") /\
    state g <> initial_state (explicit_seed_material selftest_seed)
                             (bytes_lit "init").
Proof.
  exists fresh_selftest. split; [vm_compute; reflexivity|].
  split; intros H.
  - vm_compute in H. discriminate H.
  - apply (f_equal (map double_bits)) in H. vm_compute in H. discriminate H.
Qed.

(** C6 as stated fails: in the first step from the seed of [selftest],
    with the values [np.tanh] returns in the real run, the norm before
    normalization exceeds 1e-12, the state is divided by it, and the L1
    norm of the result is 1 - 2^-53, not 1.  The key after the step starts
    with bd 6e 45 49, as in the real run. *)
Lemma C6_selftest_counterexample :
  exists (v : vec) (g' : rng),
    _step tanh_observed fresh_selftest = Ok g' /\
    reachable tanh_observed fresh_selftest /\
    firstn 4 (key g') = [xbd; x6e; x45; x49] /\
    pre_normalization tanh_observed fresh_selftest = Ok v /\
    PrimFloat.ltb EPS (l1_norm v) = true /\
    PrimFloat.leb (l1_norm v) EPS = false /\
    l1_norm (state g') = 0x1.fffffffffffffp-1%float /\
    l1_norm (state g') <> 1%float /\
    ~ unit_norm_or_skipped tanh_observed.
Proof.
  assert (R : reachable tanh_observed fresh_selftest).
  { apply (reach_init _ entropy0 (Some selftest_seed)).
    vm_compute. reflexivity. }
  do 2 eexists.
  split; [vm_compute; reflexivity|].
  split; [exact R|].
  split; [vm_compute; reflexivity|].
  split; [vm_compute; reflexivity|].
  split; [vm_compute; reflexivity|].
  split; [vm_compute; reflexivity|].
  split; [vm_compute; reflexivity|].
  split.
  - intros E. apply (f_equal double_bits) in E. vm_compute in E. discriminate E.
  - intros U.
    destruct (_step tanh_observed fresh_selftest) as [g'| |] eqn:S;
      [|vm_compute in S; discriminate S ..].
    destruct (U _ _ R S) as [E | (v & Ev & El & _)].
    + vm_compute in S. inversion S; subst; clear S.
      apply (f_equal double_bits) in E. vm_compute in E. discriminate E.
    + clear S. vm_compute in Ev. inversion Ev; subst; clear Ev.
      vm_compute in El. discriminate El.
Qed.

(** C6 (amended) at the first step from the seed of [selftest]. *)
Lemma C6_witness :
  exists v : vec,
    pre_normalization tanh_observed fresh_selftest = Ok v /\
    match _step tanh_observed fresh_selftest with
    | Ok g' =>
        (PrimFloat.ltb EPS (l1_norm v) = true /\
         state g' = map (fun a => a / l1_norm v)%float v) \/
        (PrimFloat.ltb EPS (l1_norm v) = false /\ state g' = v)
    | _ => False
    end.
Proof.
  destruct (_step tanh_observed fresh_selftest) as [g'| |] eqn:S;
    [|vm_compute in S; discriminate S ..].
  exact (C6_normalization tanh_observed fresh_selftest g' S).
Defined.

(** C7 as stated fails for Glory: on a vector with finite entries, one of
    them 1e200, the sum of the signed squares is infinite, hence not below
    1e-12, and the first quotient is NaN. *)
Lemma C7_glory_overflow_counterexample :
  all_finite large_entry = true /\
  PrimFloat.ltb (np_sum (np_abs (signed_squares large_entry))) EPS = false /\
  nth 0 (f_glory large_entry) 0%float = PrimFloat.nan /\
  all_finite (f_glory large_entry) = false.
Proof. repeat split; vm_compute; reflexivity. Qed.

(** ** Further properties: [bytes_to_bitstring] *)

Lemma byte_bits_spec (b : Z) (range : list Z) :
  forall (bits : NistStreams.str) (needed : Z),
  NistStreams.byte_bits b range bits needed =
  if (0 <=? needed) && (needed <? len range)
  then inl (bits ++ firstn (Z.to_nat needed) (map (bit_char b) range))
  else inr (bits ++ map (bit_char b) range, needed - len range).
Proof.
  induction range as [|i rest IH]; intros bits needed.
  - cbn [NistStreams.byte_bits map]. unfold len. cbn [length Z.of_nat].
    destruct (Z.leb_spec 0 needed); destruct (Z.ltb_spec needed 0);
      try lia; cbn [andb]; now rewrite app_nil_r, Z.sub_0_r.
  - cbn [NistStreams.byte_bits map]. fold (bit_char b i).
    assert (L : len (i :: rest) = len rest + 1)
      by (unfold len; cbn [length]; lia).
    rewrite L. destruct (Z.eqb_spec needed 0) as [->|N].
    + destruct (Z.ltb_spec 0 (len rest + 1)); [|unfold len in *; lia].
      cbn [Z.leb Z.compare andb Z.to_nat firstn]. now rewrite app_nil_r.
    + rewrite IH.
      destruct (Z.leb_spec 0 (needed - 1)); destruct (Z.leb_spec 0 needed);
        try lia; cbn [andb];
        destruct (Z.ltb_spec (needed - 1) (len rest));
        destruct (Z.ltb_spec needed (len rest + 1)); try lia.
      * replace (Z.to_nat needed) with (S (Z.to_nat (needed - 1))) by lia.
        cbn [firstn]. now rewrite <- app_assoc.
      * rewrite <- app_assoc. cbn [app]. do 2 f_equal. lia.
      * rewrite <- app_assoc. cbn [app]. do 2 f_equal. lia.
      * rewrite <- app_assoc. cbn [app]. do 2 f_equal. lia.
Qed.

Lemma msb_first_bit_char (b : byte) :
  map (bit_char (byte_val b)) [0; 1; 2; 3; 4; 5; 6; 7] = msb_first b.
Proof. destruct b; reflexivity. Qed.

Lemma byte_bits_all (b : byte) (bits : NistStreams.str) (needed : Z) :
  needed < 0 \/ 8 <= needed ->
  NistStreams.byte_bits (byte_val b) [0; 1; 2; 3; 4; 5; 6; 7] bits needed
  = inr (bits ++ msb_first b, needed - 8).
Proof.
  intros H. rewrite byte_bits_spec, msb_first_bit_char.
  change (len [0; 1; 2; 3; 4; 5; 6; 7]) with 8.
  destruct (Z.leb_spec 0 needed); destruct (Z.ltb_spec needed 8);
    try lia; reflexivity.
Qed.

Lemma byte_bits_some (b : byte) (bits : NistStreams.str) (needed : Z) :
  0 <= needed < 8 ->
  NistStreams.byte_bits (byte_val b) [0; 1; 2; 3; 4; 5; 6; 7] bits needed
  = inl (bits ++ firstn (Z.to_nat needed) (msb_first b)).
Proof.
  intros H. rewrite byte_bits_spec, msb_first_bit_char.
  change (len [0; 1; 2; 3; 4; 5; 6; 7]) with 8.
  destruct (Z.leb_spec 0 needed); destruct (Z.ltb_spec needed 8);
    try lia; reflexivity.
Qed.

Lemma msb_first_length (b : byte) : length (msb_first b) = 8%nat.
Proof. reflexivity. Qed.

Lemma bitstring_loop_spec (data : bytes) :
  forall (bits : NistStreams.str) (needed : Z),
  NistStreams.bitstring_loop data bits needed =
  bits ++ (if needed <? 0 then expansion data
           else firstn (Z.to_nat needed) (expansion data)).
Proof.
  induction data as [|b data IH]; intros bits needed.
  - cbn [NistStreams.bitstring_loop expansion flat_map].
    rewrite firstn_nil. destruct (needed <? 0); now rewrite app_nil_r.
  - cbn [NistStreams.bitstring_loop expansion flat_map].
    fold (expansion data).
    destruct (Z.ltb_spec needed 0) as [Hn|Hn].
    + rewrite byte_bits_all by lia. rewrite IH.
      destruct (Z.ltb_spec (needed - 8) 0); [|lia]. now rewrite app_assoc.
    + destruct (Z.lt_ge_cases needed 8) as [H8|H8].
      * rewrite byte_bits_some by lia. f_equal.
        rewrite firstn_app, msb_first_length.
        replace (Z.to_nat needed - 8)%nat with O by lia.
        cbn [firstn]. now rewrite app_nil_r.
      * rewrite byte_bits_all by lia. rewrite IH.
        destruct (Z.ltb_spec (needed - 8) 0); [lia|].
        rewrite <- app_assoc. f_equal.
        replace (Z.to_nat needed) with (length (msb_first b) + Z.to_nat (needed - 8))%nat
          by (rewrite msb_first_length; lia).
        now rewrite firstn_app_2.
Qed.

Lemma expansion_length (data : bytes) :
  length (expansion data) = (8 * length data)%nat.
Proof.
  induction data as [|b data IH]; [reflexivity|].
  cbn [expansion flat_map]. fold (expansion data).
  rewrite length_app, msb_first_length, IH. simpl. lia.
Qed.

Lemma expansion_alphabet (data : bytes) :
  Forall (fun c => c = "0"%char \/ c = "1"%char) (expansion data).
Proof.
  induction data as [|b data IH]; [constructor|].
  cbn [expansion flat_map]. apply Forall_app. split; [|exact IH].
  unfold msb_first. apply Forall_forall. intros c Hc. apply in_map_iff in Hc.
  destruct Hc as (k & <- & _). destruct (Z.testbit _ _); auto.
Qed.

Lemma byte_of_bits_msb_first (b : byte) : byte_of_bits (msb_first b) = b.
Proof. destruct b; reflexivity. Qed.

Lemma app_eq_same_length {A} (a : list A) : forall (c b d : list A),
  length a = length c -> a ++ b = c ++ d -> a = c /\ b = d.
Proof.
  induction a as [|x a IH]; intros [|y c] b d L H; try discriminate L.
  - now split.
  - injection L as L. injection H as -> H.
    destruct (IH c b d L H) as (-> & ->). now split.
Qed.

Lemma expansion_injective (d1 : bytes) : forall d2 : bytes,
  expansion d1 = expansion d2 -> d1 = d2.
Proof.
  induction d1 as [|b1 d1 IH]; intros [|b2 d2] H; try reflexivity;
    try (apply (f_equal (@length ascii)) in H; rewrite !expansion_length in H;
         simpl in H; lia).
  cbn [expansion flat_map] in H. fold (expansion d1) (expansion d2) in H.
  apply app_eq_same_length in H; [|reflexivity].
  destruct H as (Hb & Hd). f_equal; [|now apply IH].
  rewrite <- (byte_of_bits_msb_first b1), <- (byte_of_bits_msb_first b2).
  now rewrite Hb.
Qed.

Lemma bytes_to_bitstring_expansion_aux (data : bytes) (n_bits : Z) :
  length (NistStreams.bytes_to_bitstring data n_bits) =
    (if n_bits <? 0 then (8 * length data)%nat
     else Nat.min (Z.to_nat n_bits) (8 * length data)%nat) /\
  Forall (fun c => c = "0"%char \/ c = "1"%char)
         (NistStreams.bytes_to_bitstring data n_bits).
Proof.
  unfold NistStreams.bytes_to_bitstring. rewrite bitstring_loop_spec.
  cbn [app]. split.
  - destruct (n_bits <? 0).
    + apply expansion_length.
    + now rewrite length_firstn, expansion_length.
  - destruct (n_bits <? 0).
    + apply expansion_alphabet.
    + apply Forall_forall. intros c Hc.
      pose proof (expansion_alphabet data) as A.
      rewrite Forall_forall in A. apply A.
      rewrite <- (firstn_skipn (Z.to_nat n_bits)). apply in_or_app. now left.
Qed.

(** X1: [bytes_to_bitstring(data, n_bits)] is the binary expansion of the
    bytes, most significant bit first, cut after [n_bits] characters; a
    negative [n_bits] cuts nothing.  Its length is [min(n_bits, 8 len(data))]
    (or [8 len(data)]) and its characters are '0' and '1'. *)
Theorem bytes_to_bitstring_expansion (data : bytes) (n_bits : Z) :
  NistStreams.bytes_to_bitstring data n_bits =
    (if n_bits <? 0 then expansion data
     else firstn (Z.to_nat n_bits) (expansion data)) /\
  length (NistStreams.bytes_to_bitstring data n_bits) =
    (if n_bits <? 0 then (8 * length data)%nat
     else Nat.min (Z.to_nat n_bits) (8 * length data)%nat) /\
  Forall (fun c => c = "0"%char \/ c = "1"%char)
         (NistStreams.bytes_to_bitstring data n_bits).
Proof.
  assert (E : NistStreams.bytes_to_bitstring data n_bits =
              if n_bits <? 0 then expansion data
              else firstn (Z.to_nat n_bits) (expansion data)).
  { unfold NistStreams.bytes_to_bitstring. now rewrite bitstring_loop_spec. }
  split; [exact E|]. rewrite E. split.
  - destruct (n_bits <? 0).
    + apply expansion_length.
    + now rewrite length_firstn, expansion_length.
  - destruct (n_bits <? 0).
    + apply expansion_alphabet.
    + apply Forall_forall. intros c Hc.
      pose proof (expansion_alphabet data) as A.
      rewrite Forall_forall in A. apply A.
      rewrite <- (firstn_skipn (Z.to_nat n_bits)). apply in_or_app. now left.
Qed.

(** X2: when all the bits are asked for, the bit string determines the
    bytes: two byte strings with the same complete bit string are equal. *)
Theorem bytes_to_bitstring_injective (d1 d2 : bytes) :
  NistStreams.bytes_to_bitstring d1 (8 * len d1) =
  NistStreams.bytes_to_bitstring d2 (8 * len d2) ->
  d1 = d2.
Proof.
  unfold NistStreams.bytes_to_bitstring. rewrite !bitstring_loop_spec.
  cbn [app]. unfold len.
  destruct (Z.ltb_spec (8 * Z.of_nat (length d1)) 0); [lia|].
  destruct (Z.ltb_spec (8 * Z.of_nat (length d2)) 0); [lia|].
  rewrite !firstn_all2 by (rewrite expansion_length; lia).
  apply expansion_injective.
Qed.

(** ** Further properties: construction without a seed *)

Lemma init_material (env : entropy) (sb : option bytes) (m : bytes) :
  seed_material env sb = Ok m ->
  init env sb =
  Ok {| key := initial_key m (bytes_lit "|key");
        state := initial_state m (bytes_lit "|init");
        enabled := enable_mask;
        counter := 0 |}.
Proof.
  intros M. unfold init, initial_key, initial_state. rewrite M. cbn [bind].
  rewrite broadcast_same
    by (rewrite ?length_map, ?repeat_length, ?hash_vals_length;
        (reflexivity || discriminate)).
  cbn [bind]. rewrite hash_vals_digest by apply sha512_length.
  change (float_of_Z (Z.of_nat N_DIM)) with 12%float.
  rewrite map2_repeat_l
    by (now rewrite length_map, chunk_values_length).
  rewrite map_map. reflexivity.
Qed.

Lemma init_material_wf (m : bytes) :
  wf {| key := initial_key m (bytes_lit "|key");
        state := initial_state m (bytes_lit "|init");
        enabled := enable_mask;
        counter := 0 |}.
Proof.
  unfold wf, initial_state. cbn [state enabled counter].
  rewrite length_map, chunk_values_length. repeat split; lia.
Qed.

(** X3: construction without a seed succeeds exactly when the clock fits
    in 8 bytes and the process identifier in 4; otherwise it raises
    OverflowError.  When it succeeds, the key is the SHA-256 digest of the
    material (entropy, token, clock, identifier, in this order, none of
    them hashed or truncated) followed by "|key", the instance is
    well-formed and its counter is 0. *)
Theorem init_unseeded (env : entropy) :
  (0 <= time_ns env < 2 ^ 64 /\ 0 <= getpid env < 2 ^ 32 ->
   exists g : rng,
     init env None = Ok g /\ wf g /\ counter g = 0 /\
     enabled g = enable_mask /\
     key g = sha256 ((os_urandom env ++ secrets_token env
                      ++ be_bytes 8 (time_ns env) ++ be_bytes 4 (getpid env))
                     ++ bytes_lit "|key")) /\
  (~ (0 <= time_ns env < 2 ^ 64 /\ 0 <= getpid env < 2 ^ 32) ->
   init env None = Raise OverflowError).
Proof.
  split.
  - intros (Ht & Hp).
    assert (M : seed_material env None =
                Ok (os_urandom env ++ secrets_token env
                    ++ be_bytes 8 (time_ns env) ++ be_bytes 4 (getpid env))).
    { unfold seed_material.
      rewrite (to_bytes_ok 8) by (change (256 ^ Z.of_nat 8) with (2 ^ 64); lia).
      rewrite (to_bytes_ok 4) by (change (256 ^ Z.of_nat 4) with (2 ^ 32); lia).
      reflexivity. }
    eexists. split; [apply (init_material _ _ _ M)|].
    split; [apply init_material_wf|]. repeat split.
  - intros N. unfold init, seed_material, to_bytes.
    change (256 ^ Z.of_nat 8) with (2 ^ 64).
    change (256 ^ Z.of_nat 4) with (2 ^ 32).
    destruct (Z.leb_spec 0 (time_ns env));
      destruct (Z.ltb_spec (time_ns env) (2 ^ 64)); cbn [andb bind];
      try reflexivity.
    destruct (Z.leb_spec 0 (getpid env));
      destruct (Z.ltb_spec (getpid env) (2 ^ 32)); cbn [andb bind];
      try reflexivity.
    exfalso. apply N. lia.
Qed.

(** ** Further properties: the byte extractor *)

Section MoreProperties.
Variable np_tanh : float -> float.

#[local] Set Warnings "-notation-for-abbreviation".
Local Notation _step := (Chaos._step np_tanh).
Local Notation steps := (Chaos.steps np_tanh).
Local Notation random_bytes := (Chaos.random_bytes np_tanh).
Local Notation emit_block := (Spec.emit_block np_tanh).
Local Notation emit_blocks := (Spec.emit_blocks np_tanh).

Lemma random_bytes_nonpos (n : Z) (g : rng) :
  n <= 0 -> random_bytes n g = Ok ([], g).
Proof.
  intros H. rewrite random_bytes_blocks, blocks_needed_nonpos by assumption.
  cbn [Spec.emit_blocks bind concat]. now rewrite upto_nil.
Qed.

Lemma random_bytes_append (a b : Z) (g : rng) :
  0 <= a -> a mod 32 = 0 -> 0 <= b ->
  random_bytes (a + b) g =
  ('(o1, g1) <- random_bytes a g ;;
   '(o2, g2) <- random_bytes b g1 ;;
   Ok (o1 ++ o2, g2)).
Proof.
  intros Ha Hm Hb.
  assert (exists k : nat, a = 32 * Z.of_nat k) as (k & ->).
  { exists (Z.to_nat (a / 32)).
    pose proof (Z.div_mod a 32 ltac:(lia)).
    assert (0 <= a / 32) by (apply Z.div_pos; lia). lia. }
  rewrite !random_bytes_blocks.
  rewrite (blocks_needed_aligned k b Hb).
  replace (blocks_needed (32 * Z.of_nat k)) with k
    by (replace (32 * Z.of_nat k) with (32 * Z.of_nat k + 0) by lia;
        rewrite blocks_needed_aligned by lia;
        change (blocks_needed 0) with O; lia).
  rewrite emit_blocks_plus.
  destruct (emit_blocks k g) as [[b1 g1]| |] eqn:E1; try reflexivity.
  cbn [bind]. rewrite random_bytes_blocks.
  destruct (emit_blocks (blocks_needed b) g1) as [[b2 g2]| |]; try reflexivity.
  cbn [bind]. apply emit_blocks_shape in E1. destruct E1 as (_ & _ & L).
  rewrite !upto_nonneg by lia. rewrite concat_app.
  rewrite (firstn_all2 (n := Z.to_nat (32 * Z.of_nat k))) by lia.
  replace (Z.to_nat (32 * Z.of_nat k + b))
    with (length (concat b1) + Z.to_nat b)%nat by lia.
  now rewrite firstn_app_2.
Qed.

(** *** Exhaustion of the 16-byte counter *)

Lemma step_overflow (g : rng) :
  wf g -> 2 ^ 128 <= counter g -> _step g = Raise OverflowError.
Proof.
  intros (Ls & Le & Hc) H. unfold Chaos._step, step_vector.
  rewrite broadcast_same by (rewrite ?Ls, ?Le; (reflexivity || discriminate)).
  cbn [bind]. rewrite for_principles_pipeline. cbn [bind].
  unfold to_bytes. change (256 ^ Z.of_nat 16) with (2 ^ 128).
  destruct (Z.ltb_spec (counter g) (2 ^ 128)); [lia|].
  now rewrite andb_false_r.
Qed.

Lemma steps_overflow (k : nat) : forall g : rng,
  wf g -> (0 < k)%nat -> 2 ^ 128 < counter g + Z.of_nat k ->
  steps k g = Raise OverflowError.
Proof.
  induction k as [|k IH]; intros g W Hk H; [lia|].
  cbn [Chaos.steps].
  destruct (Z.le_gt_cases (2 ^ 128) (counter g)) as [Hc|Hc].
  - now rewrite step_overflow.
  - destruct (step_ok np_tanh g W ltac:(lia)) as (g1 & E1 & W1 & C1).
    rewrite E1. cbn [bind]. apply IH; [assumption|lia|lia].
Qed.

Lemma emit_block_overflow (g : rng) :
  wf g -> 2 ^ 128 < counter g + 6 -> emit_block g = Raise OverflowError.
Proof.
  intros W H. unfold Spec.emit_block.
  destruct (Z.le_gt_cases (counter g + 5) (2 ^ 128)) as [H5|H5].
  - destruct (steps_ok np_tanh 5 g W ltac:(lia)) as (g5 & E & W5 & C).
    rewrite E. cbn [bind]. unfold to_bytes.
    change (256 ^ Z.of_nat 16) with (2 ^ 128).
    destruct (Z.ltb_spec (counter g5) (2 ^ 128)); [lia|].
    now rewrite andb_false_r.
  - rewrite steps_overflow by (assumption || lia). reflexivity.
Qed.

Lemma emit_blocks_overflow (k : nat) : forall g : rng,
  wf g -> 2 ^ 128 < counter g + 6 * Z.of_nat k ->
  0 <= counter g <= 2 ^ 128 ->
  emit_blocks k g = Raise OverflowError.
Proof.
  induction k as [|k IH]; intros g W H Hc; [lia|].
  cbn [Spec.emit_blocks].
  destruct (Z.le_gt_cases (counter g + 6) (2 ^ 128)) as [H6|H6].
  - destruct (emit_block_ok np_tanh g W H6) as (b & g1 & E1 & W1).
    pose proof (emit_block_inv np_tanh _ _ _ E1) as (C1 & _).
    rewrite E1. cbn [bind]. rewrite IH by (assumption || lia). reflexivity.
  - rewrite emit_block_overflow by (assumption || lia). reflexivity.
Qed.

(** X4: on a well-formed instance whose counter is in the range of the
    16-byte field, random_bytes(n) returns exactly when the counter leaves
    room for 6 increments per block; otherwise it raises OverflowError (and
    no other exception is possible). *)
Theorem random_bytes_overflow (n : Z) (g : rng) :
  wf g -> counter g <= 2 ^ 128 ->
  (counter g + 6 * Z.of_nat (blocks_needed n) <= 2 ^ 128 ->
   exists out g', random_bytes n g = Ok (out, g')) /\
  (2 ^ 128 < counter g + 6 * Z.of_nat (blocks_needed n) ->
   random_bytes n g = Raise OverflowError).
Proof.
  intros W Hc. split; intros H.
  - destruct (random_bytes_ok np_tanh n g W H) as (out & g' & E & _). eauto.
  - rewrite random_bytes_blocks, emit_blocks_overflow; try assumption.
    + reflexivity.
    + destruct W as (_ & _ & ?). lia.
Qed.

Lemma steps_state (k : nat) : forall g g' : rng,
  steps (S k) g = Ok g' ->
  length (state g') = N_DIM /\ length (key g') = 32%nat.
Proof.
  induction k as [|k IH]; intros g g' H.
  - cbn [Chaos.steps] in H. bind_inv H. injection H as <-.
    apply step_inv in E. now destruct E as (_ & _ & L & K & _).
  - change (steps (S (S k)) g) with (g1 <- _step g ;; steps (S k) g1) in H.
    bind_inv H. now apply IH in H.
Qed.

Lemma emit_block_state (g g' : rng) (b : bytes) :
  emit_block g = Ok (b, g') ->
  length (state g') = N_DIM /\ length (key g') = 32%nat.
Proof.
  unfold Spec.emit_block. intros H. bind_inv H. bind_inv H.
  injection H as _ <-. cbn [state key]. now apply steps_state in E.
Qed.

Lemma emit_blocks_state (k : nat) : forall (g g' : rng) (bs : list bytes),
  emit_blocks (S k) g = Ok (bs, g') ->
  length (state g') = N_DIM /\ length (key g') = 32%nat.
Proof.
  induction k as [|k IH]; intros g g' bs H.
  - cbn [Spec.emit_blocks] in H. bind_inv H. destruct a as [b g1].
    cbn [bind] in H. injection H as _ <-. now apply emit_block_state in E.
  - change (emit_blocks (S (S k)) g)
      with ('(b, g1) <- emit_block g ;;
            '(bs, g2) <- emit_blocks (S k) g1 ;; Ok (b :: bs, g2)) in H.
    bind_inv H. destruct a as [b g1]. bind_inv H. destruct a as [bs' g2].
    injection H as _ <-. now apply IH in E0.
Qed.

(** X5: a call of random_bytes that returns leaves the enable mask as it
    was and the instance well-formed if it was; after a call with n > 0 the
    state has 12 entries and the key 32 bytes, whatever they were before. *)
Theorem random_bytes_invariants (n : Z) (g g' : rng) (out : bytes) :
  random_bytes n g = Ok (out, g') ->
  enabled g' = enabled g /\
  (wf g -> wf g') /\
  (0 < n -> length (state g') = 12%nat /\ length (key g') = 32%nat).
Proof.
  intros H. apply random_bytes_inv in H.
  destruct H as (bs & E & _ & C & _).
  pose proof (emit_blocks_counter np_tanh _ _ _ _ E) as (_ & En).
  split; [exact En|]. split.
  - intros (Ls & Le & Hc). unfold wf. rewrite En.
    repeat split; try assumption; try lia.
    destruct (blocks_needed n) as [|k].
    + injection E as _ <-. exact Ls.
    + now apply emit_blocks_state in E.
  - intros Hn. rewrite (blocks_needed_pos n Hn) in E.
    now apply emit_blocks_state in E.
Qed.

End MoreProperties.

(** ** Further properties: the two writers *)

Section Writers.
Variable np_tanh : float -> float.

#[local] Set Warnings "-notation-for-abbreviation".
Local Notation random_bytes := (Chaos.random_bytes np_tanh).
Local Notation stream_text := (NistStreams.stream_text np_tanh).
Local Notation write_loop := (BigCrush.write_loop np_tanh).
Local Notation write_words := (BigCrush.write_words np_tanh).

(** X6: the text [generate_nist_streams.py] writes to a file has exactly
    [bits] characters (none when [bits] is negative), all of them '0' or
    '1'; and it is written whenever the clock and the process identifier
    fit their fields and [bits] is at most 2^100. *)
Theorem stream_text_size (env : entropy) (bits : Z) :
  (forall s, stream_text env bits = Ok s ->
     length s = Z.to_nat bits /\
     Forall (fun c => c = "0"%char \/ c = "1"%char) s) /\
  (0 <= time_ns env < 2 ^ 64 -> 0 <= getpid env < 2 ^ 32 -> bits <= 2 ^ 100 ->
   exists s, stream_text env bits = Ok s).
Proof.
  split.
  - intros s H. unfold NistStreams.stream_text in H.
    bind_inv H. bind_inv H. destruct a0 as [raw g']. injection H as <-.
    pose proof (bytes_to_bitstring_expansion_aux raw bits) as (L & A).
    split; [|exact A]. rewrite L.
    apply random_bytes_inv in E0. destruct E0 as (bs & Eb & Er & _ & Hl).
    destruct (Z.ltb_spec bits 0) as [Hb|Hb].
    + assert (R : raw = []).
      { rewrite blocks_needed_nonpos in Eb.
        - injection Eb as <- _. rewrite Er. apply upto_nil.
        - assert ((bits + 7) / 8 <= 0); [|lia].
          apply Z.lt_succ_r. apply Z.div_lt_upper_bound; lia. }
      rewrite R. cbn [length]. lia.
    + assert (0 <= (bits + 7) / 8) by (apply Z.div_pos; lia).
      specialize (Hl ltac:(lia)). unfold len in Hl.
      pose proof (Z.div_mod (bits + 7) 8 ltac:(lia)).
      pose proof (Z.mod_pos_bound (bits + 7) 8 ltac:(lia)). lia.
  - intros Ht Hp Hb. unfold NistStreams.stream_text.
    destruct (proj1 (init_unseeded env) (conj Ht Hp)) as (g & I & W & C & _).
    rewrite I. cbn [bind].
    destruct (random_bytes_ok np_tanh ((bits + 7) / 8) g W) as (out & g' & E & _).
    + rewrite C. pose proof (blocks_needed_le ((bits + 7) / 8)).
      assert ((bits + 7) / 8 <= 2 ^ 100)
        by (apply Z.lt_succ_r; apply Z.div_lt_upper_bound; lia).
      assert (Z.of_nat (blocks_needed ((bits + 7) / 8)) <= 2 ^ 100) by lia.
      lia.
    + rewrite E. cbn [bind]. eauto.
Qed.

Lemma write_loop_stream (fuel : nat) :
  forall (total written : Z) (g : rng) (file : bytes),
  (Z.to_nat (total - written) <= fuel)%nat ->
  write_loop fuel total written g file =
  ('(o, g') <- random_bytes (4 * (total - written)) g ;; Ok (file ++ o, g')).
Proof.
  induction fuel as [|f IH]; intros total written g file Hf.
  - cbn [BigCrush.write_loop].
    destruct (Z.ltb_spec written total); [lia|].
    rewrite random_bytes_nonpos by lia. cbn [bind]. now rewrite app_nil_r.
  - cbn [BigCrush.write_loop].
    destruct (Z.ltb_spec written total) as [Hlt|Hge].
    + destruct (Z.leb_spec BigCrush.chunk (total - written)) as [Hc|Hc].
      * replace (4 * (total - written))
          with (4 * BigCrush.chunk + 4 * (total - written - BigCrush.chunk))
          by lia.
        rewrite random_bytes_append
          by (unfold BigCrush.chunk in *; (lia || reflexivity)).
        destruct (random_bytes (4 * BigCrush.chunk) g) as [[raw g1]| |];
          try reflexivity.
        cbn [bind]. rewrite IH by (unfold BigCrush.chunk in *; lia).
        replace (total - (written + BigCrush.chunk))
          with (total - written - BigCrush.chunk) by lia.
        destruct (random_bytes _ g1) as [[o g2]| |]; try reflexivity.
        cbn [bind]. now rewrite app_assoc.
      * destruct (random_bytes (4 * (total - written)) g) as [[raw g1]| |];
          try reflexivity.
        cbn [bind]. replace (written + (total - written)) with total by lia.
        destruct f; cbn [BigCrush.write_loop];
          rewrite Z.ltb_irrefl; reflexivity.
    + rewrite random_bytes_nonpos by lia. cbn [bind]. now rewrite app_nil_r.
Qed.

(** X7: the file [generate_big_crush.py] writes in chunks of a million
    words is, byte for byte, what one call random_bytes(4 * words) returns
    on the same new instance, and it leaves the instance in the same state:
    no byte of the stream is lost between chunks (a chunk is 4,000,000
    bytes, a multiple of the 32-byte block); the file has 4 * words bytes. *)
Theorem write_words_single_stream (env : entropy) (total : Z) :
  write_words env total =
    (g <- init env None ;; random_bytes (4 * total) g) /\
  (forall file g', write_words env total = Ok (file, g') ->
     0 <= total -> len file = 4 * total).
Proof.
  assert (E : write_words env total =
              (g <- init env None ;; random_bytes (4 * total) g)).
  { unfold BigCrush.write_words. apply bind_ext. intros g.
    rewrite write_loop_stream by lia. rewrite Z.sub_0_r.
    destruct (random_bytes (4 * total) g) as [[o g']| |]; reflexivity. }
  split; [exact E|]. rewrite E. intros file g' H Ht.
  bind_inv H. apply random_bytes_inv in H.
  destruct H as (_ & _ & _ & _ & L). apply L. lia.
Qed.

End Writers.

(** ** Further properties: the transforms *)

(** X8: [apply_principle] returns for the seven names of [PRINCIPLES], with
    a vector of the length of its argument, and raises KeyError for every
    other name. *)
Theorem apply_principle_names (np_tanh : float -> float) (name : string)
        (x : vec) :
  (In name PRINCIPLES ->
   exists y, apply_principle np_tanh name x = Ok y /\ length y = length x) /\
  (~ In name PRINCIPLES -> apply_principle np_tanh name x = Raise KeyError).
Proof.
  split.
  - intros H. unfold PRINCIPLES in H. cbn [In] in H.
    destruct H as [<-|[<-|[<-|[<-|[<-|[<-|[<-|[]]]]]]]];
      (eexists; split; [reflexivity|]).
    + reflexivity.
    + apply f_purity_length.
    + apply f_law_length.
    + apply f_love_length.
    + apply f_wisdom_length.
    + apply f_life_length.
    + apply f_glory_length.
  - intros N. unfold apply_principle, PRINCIPLE_MAP. cbn [dict_get].
    repeat match goal with
           | |- context [String.eqb ?k name] =>
               destruct (String.eqb_spec k name) as [E|_];
               [exfalso; apply N; rewrite <- E; unfold PRINCIPLES; cbn [In];
                tauto|]
           end.
    reflexivity.
Qed.

Lemma ltb_leb (a b : float) :
  PrimFloat.ltb a b = true -> PrimFloat.leb a b = true.
Proof.
  rewrite FloatAxioms.ltb_spec, FloatAxioms.leb_spec. unfold SFltb, SFleb.
  destruct (SFcompare (Prim2SF a) (Prim2SF b)) as [[| |]|]; auto.
Qed.

Lemma clip1_cases (v : float) :
  (clip1 v = v /\
   (PrimFloat.is_nan v = true \/
    (PrimFloat.ltb (-1)%float v = true /\ PrimFloat.ltb v 1%float = true))) \/
  clip1 v = 1%float \/ clip1 v = (-1)%float.
Proof.
  unfold clip1. destruct (PrimFloat.is_nan v) eqn:N; cbn [orb].
  - rewrite N. cbn [orb]. left. auto.
  - destruct (PrimFloat.ltb (-1)%float v) eqn:L1.
    + rewrite N. cbn [orb]. destruct (PrimFloat.ltb v 1%float) eqn:L2; auto.
    + right. right. reflexivity.
Qed.

(** X9: Law leaves every element that is not NaN between -1 and 1
    (bounds included), returns elements that are strictly between the
    bounds unchanged, and applying it twice is applying it once. *)
Theorem f_law_range (x : vec) :
  Forall (fun v => PrimFloat.is_nan v = true \/
                   (PrimFloat.leb (-1)%float v = true /\
                    PrimFloat.leb v 1%float = true)) (f_law x) /\
  (forall v, PrimFloat.ltb (-1)%float v = true ->
             PrimFloat.ltb v 1%float = true -> clip1 v = v) /\
  f_law (f_law x) = f_law x.
Proof.
  split; [|split].
  - unfold f_law. apply Forall_forall. intros c Hc. apply in_map_iff in Hc.
    destruct Hc as (v & <- & _).
    destruct (clip1_cases v) as [(-> & [N|(L1 & L2)])|[->| ->]].
    + now left.
    + right. split; now apply ltb_leb.
    + right. split; reflexivity.
    + right. split; reflexivity.
  - intros v L1 L2. unfold clip1. rewrite L1, orb_true_r.
    now rewrite L2, orb_true_r.
  - unfold f_law. rewrite map_map. apply map_ext. intros v.
    destruct (clip1_cases v) as [(E & _)|[->| ->]];
      [now rewrite E | reflexivity | reflexivity].
Qed.

Lemma nth_map2 {A B C} (f : A -> B -> C) (x : list A) :
  forall (y : list B) (i : nat) (da : A) (db : B) (dc : C),
  (i < length x)%nat -> (i < length y)%nat ->
  nth i (map2 f x y) dc = f (nth i x da) (nth i y db).
Proof.
  induction x as [|a x IH]; intros [|b y] i da db dc Hx Hy;
    simpl in Hx, Hy; try lia.
  destruct i as [|i]; [reflexivity|]. cbn [map2 nth]. apply IH; lia.
Qed.

Lemma last_nth {A} (l : list A) (d : A) :
  last l d = nth (length l - 1) l d.
Proof.
  induction l as [|a [|b l] IH]; try reflexivity.
  change (last (a :: b :: l) d) with (last (b :: l) d). rewrite IH.
  cbn [length]. replace (S (S (length l)) - 1)%nat
    with (S (S (length l) - 1)) by lia.
  reflexivity.
Qed.

Lemma nth_roll_right (x : vec) (i : nat) :
  (i < length x)%nat ->
  nth i (roll_right x) 0%float
  = nth ((i + length x - 1) mod length x) x 0%float.
Proof.
  intros Hi. destruct x as [|a x]; [simpl in Hi; lia|].
  unfold roll_right. destruct i as [|i].
  - rewrite Nat.add_0_l, Nat.mod_small by (cbn [length]; lia).
    rewrite <- last_nth. reflexivity.
  - cbn [nth].
    replace ((S i + length (a :: x) - 1) mod length (a :: x))%nat with i.
    + rewrite removelast_firstn_len, nth_firstn. cbn [length Nat.pred] in *.
      destruct (Nat.ltb_spec i (length x)); [reflexivity | lia].
    + replace (S i + length (a :: x) - 1)%nat
        with (i + 1 * length (a :: x))%nat by lia.
      rewrite Nat.Div0.mod_add. symmetry. apply Nat.mod_small. lia.
Qed.

Lemma nth_roll_left (x : vec) (i : nat) :
  (i < length x)%nat ->
  nth i (roll_left x) 0%float = nth ((i + 1) mod length x) x 0%float.
Proof.
  intros Hi. destruct x as [|a x]; [simpl in Hi; lia|].
  unfold roll_left. cbn [length] in *.
  destruct (Nat.eq_dec i (length x)) as [->|N].
  - rewrite app_nth2 by lia. rewrite Nat.sub_diag.
    replace (length x + 1)%nat with (S (length x)) by lia.
    now rewrite Nat.Div0.mod_same.
  - rewrite app_nth1 by lia. rewrite Nat.mod_small by lia.
    replace (i + 1)%nat with (S i) by lia. reflexivity.
Qed.

(** X10: Wisdom averages every element with its two neighbours, the
    indices wrapping around: element i becomes
    (x[i] + 0.5 * (x[i-1 mod n] + x[i+1 mod n])) * 0.5. *)
Theorem f_wisdom_neighbours (x : vec) (i : nat) :
  (i < length x)%nat ->
  nth i (f_wisdom x) 0%float =
  ((nth i x 0 +
    0.5 * (nth ((i + length x - 1) mod length x) x 0
           + nth ((i + 1) mod length x) x 0)) * 0.5)%float.
Proof.
  intros Hi. unfold f_wisdom.
  rewrite (nth_map2 _ _ _ _ 0%float 0%float)
    by (rewrite ?map2_length, ?roll_right_length, ?roll_left_length; lia).
  rewrite (nth_map2 _ _ _ _ 0%float 0%float)
    by (rewrite ?roll_right_length, ?roll_left_length; lia).
  now rewrite nth_roll_right, nth_roll_left.
Qed.

(** ** Further properties: counters, digests and the mask *)

Lemma byte_val_of (z : Z) : byte_val (byte_of z) = z mod 256.
Proof.
  unfold byte_val, byte_of.
  pose proof (Z.mod_pos_bound z 256 ltac:(lia)) as B.
  destruct (Byte.of_N (Z.to_N (z mod 256))) as [b|] eqn:E.
  - apply Byte.to_of_N in E. rewrite E. lia.
  - apply Byte.of_N_None_iff in E. lia.
Qed.

Lemma int_from_bytes_cons (a : byte) (l : bytes) :
  int_from_bytes (a :: l)
  = byte_val a * 256 ^ Z.of_nat (length l) + int_from_bytes l.
Proof.
  unfold int_from_bytes. cbn [fold_left]. rewrite Z.mul_0_l, Z.add_0_l.
  generalize (byte_val a). clear a. induction l as [|b l IH]; intros acc.
  - cbn [fold_left length Z.of_nat]. lia.
  - cbn [fold_left]. rewrite IH. rewrite (IH (0 * 256 + byte_val b)).
    cbn [length]. rewrite Nat2Z.inj_succ, Z.pow_succ_r by lia. lia.
Qed.

Lemma int_from_bytes_be (n : nat) (z : Z) :
  0 <= z -> int_from_bytes (be_bytes n z) = z mod 256 ^ Z.of_nat n.
Proof.
  intros Hz. induction n as [|n IH].
  - cbn [be_bytes Z.of_nat]. now rewrite Z.pow_0_r, Z.mod_1_r.
  - cbn [be_bytes]. rewrite int_from_bytes_cons, be_bytes_length, IH.
    rewrite byte_val_of, Nat2Z.inj_succ, Z.pow_succ_r by lia.
    set (p := 256 ^ Z.of_nat n). assert (0 < p) by (apply Z.pow_pos_nonneg; lia).
    rewrite (Z.mul_comm 256 p). rewrite Z.rem_mul_r by lia. lia.
Qed.

(** X11: the big-endian encoding of the code is inverted by
    [int.from_bytes]: for 0 <= z < 256^n, [z.to_bytes(n, "big")] returns n
    bytes whose [int.from_bytes] is z; hence two counters in the range of
    the 16-byte field that are encoded alike are equal. *)
Theorem to_bytes_round_trip (n : nat) (z : Z) :
  0 <= z < 256 ^ Z.of_nat n ->
  exists b : bytes,
    to_bytes n z = Ok b /\ length b = n /\ int_from_bytes b = z /\
    (forall z', to_bytes n z' = Ok b -> z' = z).
Proof.
  intros H. exists (be_bytes n z). split; [now apply to_bytes_ok|].
  split; [apply be_bytes_length|].
  assert (R : forall y, 0 <= y < 256 ^ Z.of_nat n ->
                        int_from_bytes (be_bytes n y) = y).
  { intros y Hy. rewrite int_from_bytes_be by lia. apply Z.mod_small. lia. }
  split; [now apply R|].
  intros z' E. apply to_bytes_inv in E. destruct E as (Hz' & E).
  rewrite <- (R z' Hz'), <- (R z H). now rewrite E.
Qed.

Lemma slice_firstn {A} (l : list A) (i j n : nat) :
  (j <= n)%nat -> slice (firstn n l) i j = slice l i j.
Proof.
  intros H. unfold slice. rewrite skipn_firstn_comm, firstn_firstn.
  f_equal. lia.
Qed.

(** X12: the twelve values drawn from a 64-byte digest use its first 48
    bytes only: two digests that agree on them give the same vector. *)
Theorem hash_vals_first_48 (src src' : bytes) :
  length src = 64%nat -> length src' = 64%nat ->
  firstn 48 src = firstn 48 src' ->
  hash_vals src = hash_vals src'.
Proof.
  intros L L' E. rewrite !hash_vals_digest by assumption.
  unfold chunk_values. apply map_ext_in. intros i Hi. apply in_seq in Hi.
  rewrite <- (slice_firstn src _ _ 48), <- (slice_firstn src' _ _ 48) by lia.
  now rewrite E.
Qed.

Lemma finite_cases (a : float) :
  PrimFloat.is_finite a = true ->
  (exists s, Prim2SF a = S754_zero s) \/
  (exists s m e, Prim2SF a = S754_finite s m e).
Proof.
  unfold PrimFloat.is_finite, PrimFloat.is_nan, PrimFloat.is_infinity.
  rewrite !FloatAxioms.eqb_spec, FloatAxioms.abs_spec.
  destruct (Prim2SF a) as [s|s| |s m e]; eauto.
  - destruct s; discriminate.
  - discriminate.
Qed.

Lemma abs_mul_zero (a : float) :
  PrimFloat.is_finite a = true -> PrimFloat.abs (a * 0)%float = 0%float.
Proof.
  intros F. apply Prim2SF_inj.
  rewrite FloatAxioms.abs_spec, FloatAxioms.mul_spec.
  change (Prim2SF 0%float) with (S754_zero false).
  destruct (finite_cases a F) as [(s & ->)|(s & m & e & ->)];
    destruct s; reflexivity.
Qed.

Lemma f_purity_abs (x y : vec) :
  np_abs x = np_abs y -> f_purity x = f_purity y.
Proof.
  intros E. unfold f_purity, full_like. rewrite E.
  apply (f_equal (@length float)) in E. unfold np_abs in E.
  rewrite !length_map in E. now rewrite E.
Qed.

(** X13: one step reads the state at the indices 0, 4 and 7 only: two
    instances with the mask of [__init__], the same key and counter, and
    12-entry states with finite entries that agree at these three indices
    have the same next state, key and counter. *)
Theorem step_reads_three_coordinates (np_tanh : float -> float)
        (g1 g2 : rng) :
  enabled g1 = enable_mask -> enabled g2 = enable_mask ->
  key g1 = key g2 -> counter g1 = counter g2 ->
  length (state g1) = 12%nat -> length (state g2) = 12%nat ->
  all_finite (state g1) = true -> all_finite (state g2) = true ->
  (forall i, In i [0; 4; 7]%nat ->
             nth i (state g1) 0%float = nth i (state g2) 0%float) ->
  _step np_tanh g1 = _step np_tanh g2.
Proof.
  intros M1 M2 K C L1 L2 F1 F2 A.
  assert (P : pipeline np_tanh (map2 PrimFloat.mul (state g1) enable_mask)
              = pipeline np_tanh (map2 PrimFloat.mul (state g2) enable_mask)).
  { unfold pipeline, f_truth. do 5 f_equal. apply f_purity_abs.
    pose proof (A 0%nat ltac:(cbn; tauto)) as A0.
    pose proof (A 4%nat ltac:(cbn; tauto)) as A4.
    pose proof (A 7%nat ltac:(cbn; tauto)) as A7.
    destruct (state g1) as [|a0 [|a1 [|a2 [|a3 [|a4 [|a5 [|a6 [|a7 [|a8
      [|a9 [|a10 [|a11 [|? ?]]]]]]]]]]]]]; try discriminate L1.
    destruct (state g2) as [|b0 [|b1 [|b2 [|b3 [|b4 [|b5 [|b6 [|b7 [|b8
      [|b9 [|b10 [|b11 [|? ?]]]]]]]]]]]]]; try discriminate L2.
    cbn [nth] in A0, A4, A7. subst b0 b4 b7.
    unfold all_finite in F1, F2. cbn [forallb] in F1, F2.
    repeat match goal with
           | H : _ && _ = true |- _ => apply andb_prop in H; destruct H
           end.
    unfold enable_mask, np_abs. cbn [map2 map].
    rewrite !abs_mul_zero by assumption. reflexivity. }
  unfold _step, step_vector. rewrite M1, M2.
  rewrite !broadcast_same
    by (rewrite ?L1, ?L2; (reflexivity || discriminate)).
  cbn [bind]. rewrite !for_principles_pipeline. cbn [bind].
  rewrite P, K, C. reflexivity.
Qed.

(** ** Witnesses of the further properties *)

Lemma bytes_to_bitstring_injective_witness :
  [xa5; x0f] = be_bytes 2 0xa50f.
Proof.
  apply (bytes_to_bitstring_injective [xa5; x0f] (be_bytes 2 0xa50f)).
  vm_compute. reflexivity.
Defined.

Lemma init_unseeded_witness :
  exists g : rng, init entropy0 None = Ok g /\ wf g /\ counter g = 0.
Proof.
  destruct (proj1 (init_unseeded entropy0)) as (g & I & W & C & _).
  - split; vm_compute; split; discriminate || reflexivity.
  - exists g. auto.
Defined.

Lemma random_bytes_overflow_witness :
  Chaos.random_bytes tanh_rational 1 nearly_exhausted = Raise OverflowError.
Proof.
  apply (random_bytes_overflow tanh_rational 1 nearly_exhausted).
  - split; [vm_compute; reflexivity|].
    split; [vm_compute; reflexivity | vm_compute; discriminate].
  - vm_compute. discriminate.
  - vm_compute. reflexivity.
Defined.

Lemma random_bytes_invariants_witness :
  exists out g',
    Chaos.random_bytes tanh_rational 1 fresh_selftest = Ok (out, g') /\
    enabled g' = enabled fresh_selftest.
Proof.
  destruct (random_bytes_ok tanh_rational 1 fresh_selftest)
    as (out & g' & E & _).
  - split; [vm_compute; reflexivity|].
    split; [vm_compute; reflexivity | vm_compute; discriminate].
  - vm_compute. discriminate.
  - exists out, g'. split; [exact E|].
    exact (proj1 (random_bytes_invariants tanh_rational 1 _ _ _ E)).
Defined.

Lemma f_wisdom_neighbours_witness :
  nth 0 (f_wisdom [1; 2; 3; 4]%float) 0%float = 2%float.
Proof.
  rewrite (f_wisdom_neighbours [1; 2; 3; 4]%float 0); [|simpl; lia].
  vm_compute. reflexivity.
Defined.

Lemma to_bytes_round_trip_witness :
  exists b : bytes,
    to_bytes 16 5 = Ok b /\ length b = 16%nat /\ int_from_bytes b = 5.
Proof.
  destruct (to_bytes_round_trip 16 5) as (b & E & L & R & _).
  - split; [lia | vm_compute; reflexivity].
  - exists b. auto.
Defined.

Lemma hash_vals_first_48_witness :
  hash_vals (repeat x00 64) = hash_vals (repeat x00 48 ++ repeat xff 16).
Proof.
  apply hash_vals_first_48; vm_compute; reflexivity.
Defined.

Lemma step_reads_three_coordinates_witness :
  _step tanh_rational fresh_selftest = _step tanh_rational perturbed_selftest.
Proof.
  apply step_reads_three_coordinates; try (vm_compute; reflexivity).
  intros i [<-|[<-|[<-|[]]]]; vm_compute; reflexivity.
Defined.
